(** * profile-processing: crop decision and configuration resolution

    A shallow embedding of the decision logic of the avatar image
    pre-processor:

    - [config.js]: the [processingConfig] literal, the [presets] table,
      [getConfig] and [mergeConfig];
    - [image-processor.js]: the face selection and crop arithmetic of
      [smartCropImage] and the brightness tier selection of
      [colorCorrectForAvatars].

    Modelling conventions.

    - JavaScript numbers are exact rationals ([Q]); the rounding of IEEE
      doubles, [NaN] and the infinities are not modelled.  [Math.floor] is
      [Qfloor], and a quantity the source floors is an integer ([Z]).
    - JavaScript objects live in a heap: a location holds the own enumerable
      properties of one object, a value of object type is a reference.
      Object literals allocate; nothing in the configuration module assigns
      to a property of an existing object, and the embedding shows that.
      The command line tool assigns to the object it has just allocated.
    - A [TypeError] is the [Throw] outcome of the error-and-state monad [JS].
    - Pixel work ([sharp]) and face detection ([face-api]) are collaborators:
      the embedding takes the image dimensions and the detector's answer as
      inputs and stops at the rectangle handed to [extract], of which it
      keeps one fact: an empty rectangle, or one that leaves the image, is
      refused. *)

From Stdlib Require Import QArith Qround Qminmax Lqa ZArith Lia.
From stdpp Require Import gmap strings list pretty.

Local Open Scope Z_scope.

(** ** Numbers *)

(** [a < b] on JavaScript numbers. *)
Definition Qltb (a b : Q) : bool := negb (Qle_bool b a).

(** ** Brightness tiers ([colorCorrectForAvatars]) *)

Record BrightnessConfig := mkBrightness {
  base : Q;
  darkImages : Q;
  mediumDarkImages : Q;
  brightImages : Q;
  darkThreshold : Q;
  mediumThreshold : Q;
  brightThreshold : Q;
  final : Q
}.

(** The [if / else if / else if] chain that picks [brightnessAdjustment]. *)
Definition brightnessAdjustment (avgLuminance : Q) (b : BrightnessConfig) : Q :=
  if Qltb avgLuminance (darkThreshold b) then darkImages b
  else if Qltb avgLuminance (mediumThreshold b) then mediumDarkImages b
  else if Qltb (brightThreshold b) avgLuminance then brightImages b
  else base b.

(** ** Face selection ([smartCropImage], the [reduce] over the detections) *)

Record FaceBox := mkBox {
  box_x : Q;
  box_y : Q;
  box_width : Q;
  box_height : Q
}.

(** The [area] getter of a detection box. *)
Definition area (b : FaceBox) : Q := (box_width b * box_height b)%Q.

(** The reducer [(prev, current) => (prev.box.area > current.box.area) ? prev : current]. *)
Definition largerFace (prev current : FaceBox) : FaceBox :=
  if Qltb (area current) (area prev) then prev else current.

(** [detections.reduce(...)] without an initial value, behind the guard
    [detections.length > 0]. *)
Definition largestFace (detections : list FaceBox) : option FaceBox :=
  match detections with
  | [] => None
  | d :: ds => Some (fold_left largerFace ds d)
  end.

Definition faceCenterOf (box : FaceBox) : Q * Q :=
  ((box_x box + box_width box / 2)%Q, (box_y box + box_height box / 2)%Q).

(** ** Crop arithmetic ([smartCropImage]) *)

Record ThresholdConfig := mkThreshold {
  enabled : bool;
  faceToImageRatioThreshold : Q;
  faceEdgeDistanceThreshold : Q;
  looseCropSize : Q;
  skipCropSize : Q
}.

Record CroppingConfig := mkCropping {
  faceDetectedSize : Q;
  fallbackSize : Q;
  tightCropDetection : ThresholdConfig;
  faceVerticalOffset : Q;
  landscapeThreshold : Q;
  fallbackLandscapeTop : Q;
  fallbackPortraitTop : Q
}.

Record ImageMetadata := mkMetadata {
  width : Z;
  height : Z
}.

(** The argument of [image.extract]. *)
Record CropRegion := mkRegion {
  crop_left : Z;
  crop_top : Z;
  crop_width : Z;
  crop_height : Z
}.

(** [Math.min(width, height) * size], with [size] chosen by [if (faceCenter)]. *)
Definition squareSize (m : ImageMetadata) (faceCenter : option (Q * Q))
    (c : CroppingConfig) : Q :=
  match faceCenter with
  | Some _ => inject_Z (Z.min (width m) (height m)) * faceDetectedSize c
  | None => inject_Z (Z.min (width m) (height m)) * fallbackSize c
  end%Q.

(** The part of [smartCropImage] after detection: crop size, position,
    clamping to the image and the final size adjustment. *)
Definition cropRegion (m : ImageMetadata) (faceCenter : option (Q * Q))
    (c : CroppingConfig) : CropRegion :=
  let cropWidth := Qfloor (squareSize m faceCenter c) in
  let cropHeight := Qfloor (squareSize m faceCenter c) in
  let '(left0, top0) :=
    match faceCenter with
    | Some (fx, fy) =>
        let left := Qfloor (fx - inject_Z cropWidth / 2) in
        let top := Qfloor (fy - inject_Z cropHeight / 2) in
        let top := Qfloor (inject_Z top + inject_Z cropHeight * faceVerticalOffset c) in
        (left, top)
    | None =>
        let aspectRatio := (inject_Z (width m) / inject_Z (height m))%Q in
        let left := Qfloor (inject_Z (width m - cropWidth) / 2) in
        let top :=
          if Qltb (landscapeThreshold c) aspectRatio
          then Qfloor (inject_Z (height m) * fallbackLandscapeTop c)
          else Qfloor (inject_Z (height m) * fallbackPortraitTop c) in
        (left, top)
    end in
  let left := Z.max 0 (Z.min left0 (width m - cropWidth)) in
  let top := Z.max 0 (Z.min top0 (height m - cropHeight)) in
  let actualCropWidth := Z.min cropWidth (width m - left) in
  let actualCropHeight := Z.min cropHeight (height m - top) in
  {| crop_left := left; crop_top := top;
     crop_width := actualCropWidth; crop_height := actualCropHeight |}.

(** The face centre [smartCropImage] ends up with.  [detections] is [None]
    when the models are not loaded or detection throws (the [catch] only
    logs), and the list returned by [detectAllFaces] otherwise. *)
Definition detectFaceCenter (detections : option (list FaceBox)) : option (Q * Q) :=
  match detections with
  | None => None
  | Some ds => faceCenterOf <$> largestFace ds
  end.

Definition smartCropImage (m : ImageMetadata) (detections : option (list FaceBox))
    (c : CroppingConfig) : CropRegion :=
  cropRegion m (detectFaceCenter detections) c.

(** Modelled from the spec: the Face Geometry Analyzer (section 4.2), which
    no [smartCropImage] under the sources computes.  [faceRatio] is the
    box area over the image area. *)
Definition faceRatio (box : FaceBox) (m : ImageMetadata) : Q :=
  (area box / (inject_Z (width m) * inject_Z (height m)))%Q.

(** Modelled from the spec: the four edge distances of section 4.2, left,
    right, top, bottom, each divided by the image dimension. *)
Definition edgeDistances (box : FaceBox) (m : ImageMetadata) : Q * Q * Q * Q :=
  let '(cx, cy) := faceCenterOf box in
  let l := (cx / inject_Z (width m))%Q in
  let t := (cy / inject_Z (height m))%Q in
  (l, (1 - l)%Q, t, (1 - t)%Q).

(** Modelled from the spec: [minEdgeDistance] of section 4.2. *)
Definition minEdgeDistance (box : FaceBox) (m : ImageMetadata) : Q :=
  let '(l, r, t, b) := edgeDistances box m in
  Qmin (Qmin l r) (Qmin t b).

(** Modelled from the spec: the verdict [isTight] of section 4.2,
    [enabled AND (faceRatio > faceToImageRatioThreshold OR
    minEdgeDistance < faceEdgeDistanceThreshold)]. *)
Definition isTight (box : FaceBox) (m : ImageMetadata) (t : ThresholdConfig) : bool :=
  enabled t &&
  (Qltb (faceToImageRatioThreshold t) (faceRatio box m)
   || Qltb (minEdgeDistance box m) (faceEdgeDistanceThreshold t)).

(** ** JavaScript values and the object heap *)

Abbreviation loc := nat.

Inductive val :=
  | VUndefined
  | VNull
  | VBool (b : bool)
  | VNum (q : Q)
  | VStr (s : string)
  | VRef (l : loc)
  | VBuiltin (name : string).
Arguments VRef l%_nat.

#[global] Instance Q_eq_dec : EqDecision Q.
Proof. solve_decision. Defined.

#[global] Instance val_eq_dec : EqDecision val.
Proof. solve_decision. Defined.

(** A heap cell: the own enumerable properties of a plain object (an object
    literal, or an object or array read from JSON, an array having its
    indices as property names).  [VBuiltin k] stands for what the name [k]
    of [Object.prototype] holds: a built-in function, or for [__proto__]
    [Object.prototype] itself; such a value is an object with no own
    enumerable property. *)
Abbreviation obj := (gmap string val).
Abbreviation heap := (list obj).

Inductive outcome (A : Type) :=
  | Return (a : A)
  | Throw (error : string).
Arguments Return {A} a.
Arguments Throw {A} error.

(** Computations that may allocate and may throw. *)
Definition JS (A : Type) : Type := heap → outcome A * heap.

Definition ret {A} (a : A) : JS A := λ h, (Return a, h).

Definition bind {A B} (m : JS A) (f : A → JS B) : JS B :=
  λ h, match m h with
       | (Return a, h') => f a h'
       | (Throw e, h') => (Throw e, h')
       end.

Definition throw {A} (e : string) : JS A := λ h, (Throw e, h).

Notation "x <- m ;; k" := (bind m (λ x, k))
  (at level 100, m at next level, right associativity,
   format "'[v' x  <-  m  ;;  '/' k ']'").

(** The names every plain object inherits from [Object.prototype]. *)
Definition objectPrototypeNames : list string :=
  ["constructor"; "toString"; "toLocaleString"; "valueOf"; "hasOwnProperty";
   "isPrototypeOf"; "propertyIsEnumerable"; "__proto__";
   "__defineGetter__"; "__defineSetter__"; "__lookupGetter__";
   "__lookupSetter__"]%string.

Definition objectPrototype (k : string) : val :=
  if bool_decide (k ∈ objectPrototypeNames) then VBuiltin k else VUndefined.

(** [v[k]] for [v] neither [undefined] nor [null]: the own property, else
    the inherited one.  The prototypes of numbers, booleans, strings and
    functions are not modelled beyond [Object.prototype]; the code reads
    only configuration names from such values, which none of them defines. *)
Definition lookupProperty (h : heap) (v : val) (k : string) : val :=
  match v with
  | VRef l =>
      match h !! l ≫= (λ o : obj, o !! k) with
      | Some x => x
      | None => objectPrototype k
      end
  | _ => objectPrototype k
  end.

(** [v[k]] and [v.k]. *)
Definition getProp (v : val) (k : string) : JS val :=
  match v with
  | VUndefined | VNull =>
      throw ("TypeError: Cannot read properties of undefined or null, reading " +:+ k)
  | _ => λ h, (Return (lookupProperty h v k), h)
  end.

(** [v?.k]. *)
Definition optGetProp (v : val) (k : string) : JS val :=
  match v with
  | VUndefined | VNull => ret VUndefined
  | _ => λ h, (Return (lookupProperty h v k), h)
  end.

(** [ToBoolean], as used by [||]. *)
Definition toBoolean (v : val) : bool :=
  match v with
  | VUndefined | VNull => false
  | VBool b => b
  | VNum q => negb (Qeq_bool q 0)
  | VStr s => negb (bool_decide (s = ""%string))
  | VRef _ | VBuiltin _ => true
  end.

(** The index properties of a string: [{..."ab"}] is [{0: "a", 1: "b"}]. *)
Definition stringProperties (s : string) : obj :=
  list_to_map
    (imap (λ i c, (pretty i, VStr (String c EmptyString)))
          (String.list_ascii_of_string s)).

(** The properties [...v] copies: the own enumerable ones. *)
Definition ownProperties (h : heap) (v : val) : obj :=
  match v with
  | VRef l => default ∅ (h !! l)
  | VStr s => stringProperties s
  | _ => ∅
  end.

(** The members of an object literal, their values already evaluated. *)
Inductive member :=
  | Spread (v : val)
  | Field (k : string) (v : val).

(** Defining one member on the object under construction: later members
    overwrite earlier ones. *)
Definition define (h : heap) (o : obj) (m : member) : obj :=
  match m with
  | Spread v => ownProperties h v ∪ o
  | Field k v => <[k := v]> o
  end.

(** [{ m1, m2, ... }]: a new object at the next free location.  The member
    values are computed before, in source order; as no existing object is
    ever written, reading the spread sources at allocation time gives what
    the interleaved evaluation of the source gives. *)
Definition objectLiteral (ms : list member) : JS val :=
  λ h, (Return (VRef (length h)), h ++ [fold_left (define h) ms ∅]).

(** ** The configuration module ([config.js]) *)

Local Open Scope string_scope.

Definition N (q : Q) : val := VNum q.

(** [const processingConfig = { ... }].  The nested literals are allocated
    before the object that holds them. *)
Definition processingConfigLiteral : JS val :=
  brightness <- objectLiteral
    [Field "base" (N 1.2);
     Field "darkImages" (N 1.16);
     Field "mediumDarkImages" (N 1.12);
     Field "brightImages" (N 1.05);
     Field "darkThreshold" (N 100);
     Field "mediumThreshold" (N 140);
     Field "brightThreshold" (N 180);
     Field "final" (N 1.01)] ;;
  color <- objectLiteral
    [Field "saturation" (N 0.85);
     Field "finalSaturation" (N 1.04);
     Field "hue" (N (-8))] ;;
  contrast <- objectLiteral
    [Field "gamma" (N 1.0);
     Field "linearMultiplier" (N 1.07);
     Field "linearOffset" (N 1.5)] ;;
  sharpening <- objectLiteral
    [Field "sigma" (N 0.9);
     Field "flat" (N 1.0);
     Field "jagged" (N 2.0)] ;;
  tightCropDetection <- objectLiteral
    [Field "enabled" (VBool true);
     Field "faceToImageRatioThreshold" (N 0.03);
     Field "faceEdgeDistanceThreshold" (N 0.20);
     Field "looseCropSize" (N 0.95);
     Field "skipCropSize" (N 1.0)] ;;
  cropping <- objectLiteral
    [Field "faceDetectedSize" (N 0.65);
     Field "fallbackSize" (N 0.8);
     Field "tightCropDetection" tightCropDetection;
     Field "faceVerticalOffset" (N 0.1);
     Field "landscapeThreshold" (N 1.2);
     Field "fallbackLandscapeTop" (N 0.25);
     Field "fallbackPortraitTop" (N 0.2)] ;;
  output <- objectLiteral
    [Field "quality" (N 95);
     Field "compressionLevel" (N 6);
     Field "size" (N 1024)] ;;
  objectLiteral
    [Field "brightness" brightness;
     Field "color" color;
     Field "contrast" contrast;
     Field "sharpening" sharpening;
     Field "cropping" cropping;
     Field "output" output].

(** [{ ...processingConfig.group, k1: v1, ... }] *)
Definition override (processingConfig : val) (group : string)
    (fields : list member) : JS val :=
  g <- getProp processingConfig group ;;
  objectLiteral (Spread g :: fields).

(** [const presets = { default: processingConfig, brighten: {...}, ... }] *)
Definition presetsLiteral (processingConfig : val) : JS val :=
  brightness <- override processingConfig "brightness"
    [Field "base" (N 1.20);
     Field "darkImages" (N 1.25);
     Field "mediumDarkImages" (N 1.18);
     Field "final" (N 1.05)] ;;
  contrast <- override processingConfig "contrast"
    [Field "gamma" (N 1.25);
     Field "linearMultiplier" (N 1.15)] ;;
  brighten <- objectLiteral
    [Spread processingConfig;
     Field "brightness" brightness;
     Field "contrast" contrast] ;;
  brightness <- override processingConfig "brightness"
    [Field "base" (N 1.05);
     Field "darkImages" (N 1.08);
     Field "mediumDarkImages" (N 1.06);
     Field "final" (N 1.0)] ;;
  color <- override processingConfig "color"
    [Field "saturation" (N 1.05);
     Field "finalSaturation" (N 1.02)] ;;
  subtle <- objectLiteral
    [Spread processingConfig;
     Field "brightness" brightness;
     Field "color" color] ;;
  brightness <- override processingConfig "brightness"
    [Field "base" (N 1.15)] ;;
  color <- override processingConfig "color"
    [Field "saturation" (N 1.20);
     Field "finalSaturation" (N 1.08)] ;;
  contrast <- override processingConfig "contrast"
    [Field "gamma" (N 1.30);
     Field "linearMultiplier" (N 1.12)] ;;
  sharpening <- override processingConfig "sharpening"
    [Field "sigma" (N 1.5);
     Field "jagged" (N 2.5)] ;;
  vibrant <- objectLiteral
    [Spread processingConfig;
     Field "brightness" brightness;
     Field "color" color;
     Field "contrast" contrast;
     Field "sharpening" sharpening] ;;
  brightness <- override processingConfig "brightness"
    [Field "base" (N 1.08);
     Field "final" (N 1.0)] ;;
  color <- override processingConfig "color"
    [Field "saturation" (N 1.08);
     Field "finalSaturation" (N 1.02)] ;;
  contrast <- override processingConfig "contrast"
    [Field "gamma" (N 1.10);
     Field "linearMultiplier" (N 1.05)] ;;
  sharpening <- override processingConfig "sharpening"
    [Field "sigma" (N 0.8);
     Field "jagged" (N 1.5)] ;;
  natural <- objectLiteral
    [Spread processingConfig;
     Field "brightness" brightness;
     Field "color" color;
     Field "contrast" contrast;
     Field "sharpening" sharpening] ;;
  objectLiteral
    [Field "default" processingConfig;
     Field "brighten" brighten;
     Field "subtle" subtle;
     Field "vibrant" vibrant;
     Field "natural" natural].

(** Loading the module: both literals, evaluated on the heap given. *)
Definition loadConfig : JS (val * val) :=
  processingConfig <- processingConfigLiteral ;;
  presets <- presetsLiteral processingConfig ;;
  ret (processingConfig, presets).

(** The heap right after the module is loaded, and its two constants. *)
Definition configHeap : heap := Eval vm_compute in snd (loadConfig []).

Definition processingConfig : val :=
  Eval vm_compute in
    match fst (loadConfig []) with Return (pc, _) => pc | Throw _ => VUndefined end.

Definition presets : val :=
  Eval vm_compute in
    match fst (loadConfig []) with Return (_, ps) => ps | Throw _ => VUndefined end.

(** The published preset names. *)
Definition presetNames : list string :=
  ["default"; "brighten"; "subtle"; "vibrant"; "natural"].

(** [presets[presetName] || presets.default], with the parameter default
    ['default'] for an absent name. *)
Definition getConfig (presetName : option string) : JS val :=
  let presetName := default "default" presetName in
  p <- getProp presets presetName ;;
  if toBoolean p then ret p else getProp presets "default".

(** [{ ...base.group, ...customSettings.group }] *)
Definition mergeGroup (base customSettings : val) (group : string) : JS val :=
  b <- getProp base group ;;
  c <- getProp customSettings group ;;
  objectLiteral [Spread b; Spread c].

(** The object literal [mergeConfig] returns. *)
Definition mergeWith (base customSettings : val) : JS val :=
  brightness <- mergeGroup base customSettings "brightness" ;;
  color <- mergeGroup base customSettings "color" ;;
  contrast <- mergeGroup base customSettings "contrast" ;;
  sharpening <- mergeGroup base customSettings "sharpening" ;;
  baseCropping <- getProp base "cropping" ;;
  customCropping <- getProp customSettings "cropping" ;;
  baseTight <- getProp baseCropping "tightCropDetection" ;;
  customTight <- optGetProp customCropping "tightCropDetection" ;;
  tightCropDetection <- objectLiteral [Spread baseTight; Spread customTight] ;;
  cropping <- objectLiteral
    [Spread baseCropping;
     Spread customCropping;
     Field "tightCropDetection" tightCropDetection] ;;
  output <- mergeGroup base customSettings "output" ;;
  objectLiteral
    [Spread base;
     Spread customSettings;
     Field "brightness" brightness;
     Field "color" color;
     Field "contrast" contrast;
     Field "sharpening" sharpening;
     Field "cropping" cropping;
     Field "output" output].

(** [mergeConfig(basePreset = 'default', customSettings = {})]: an absent
    argument is [None], respectively [VUndefined]. *)
Definition mergeConfig (basePreset : option string) (customSettings : val) : JS val :=
  customSettings <-
    match customSettings with
    | VUndefined => objectLiteral []
    | _ => ret customSettings
    end ;;
  base <- getConfig basePreset ;;
  mergeWith base customSettings.

(** ** Callers of the configuration module *)

(** [Object.keys(v)]: the names of the own enumerable properties.
    JavaScript lists them in insertion order, the model in the order of the
    map; the callers only test membership. *)
Definition objectKeys (v : val) : JS (list string) :=
  match v with
  | VUndefined | VNull =>
      throw "TypeError: Cannot convert undefined or null to object"
  | _ => λ h, (Return (map_to_list (ownProperties h v)).*1, h)
  end.

(** [keys.includes(x)] on an array of strings: only a string is found. *)
Definition includes (keys : list string) (x : val) : bool :=
  match x with
  | VStr s => bool_decide (s ∈ keys)
  | _ => false
  end.

(** [app.js], route [/process]: the preset of the request body, validated
    against [Object.keys(presets)]. *)
Definition selectedPreset (bodyPreset : val) : JS val :=
  let preset := if toBoolean bodyPreset then bodyPreset else VStr "default" in
  validPresets <- objectKeys presets ;;
  ret (if includes validPresets preset then preset else VStr "default").

(** The cloud function's validation:
    [preset && validPresets.includes(preset) ? preset : 'default']. *)
Definition selectedPresetFunction (preset : val) : JS val :=
  validPresets <- objectKeys presets ;;
  ret (if toBoolean preset && includes validPresets preset
       then preset else VStr "default").

(** [server.js], route [/api/presets/:name]: the status of the response,
    200 with the configuration when [getConfig] returns a truthy value,
    404 otherwise. *)
Definition presetRouteStatus (presetName : string) : JS Z :=
  config <- getConfig (Some presetName) ;;
  ret (if toBoolean config then 200 else 404).

(** ** The command line tool ([quick-adjust.js]) *)

(** [x === undefined]. *)
Definition isUndefined (x : val) : bool :=
  match x with
  | VUndefined => true
  | _ => false
  end.

(** [o.k = x].  [buildCustomSettings] is the only writer, and it writes
    the object it has just allocated; an assignment to a property of a
    number, a boolean or a string is ignored, and no function is ever
    assigned to. *)
Definition setProp (o : val) (k : string) (x : val) : JS unit :=
  match o with
  | VUndefined | VNull =>
      throw ("TypeError: Cannot set properties of undefined or null, setting " +:+ k)
  | VRef l => λ h, (Return tt, alter (<[k := x]>) l h)
  | _ => ret tt
  end.

(** [if (x !== undefined) { customSettings.group = { field: x }; }] *)
Definition setGroup (customSettings : val) (group field : string) (x : val) : JS unit :=
  if isUndefined x then ret tt
  else
    o <- objectLiteral [Field field x] ;;
    setProp customSettings group o.

(** [buildCustomSettings(options)]: one statement per option, in source
    order.  The source reads each option twice, in the test and in the
    literal; nothing is written to [options] in between. *)
Definition buildCustomSettings (options : val) : JS val :=
  customSettings <- objectLiteral [] ;;
  brightness <- getProp options "brightness" ;;
  _ <- setGroup customSettings "brightness" "base" brightness ;;
  saturation <- getProp options "saturation" ;;
  _ <- setGroup customSettings "color" "saturation" saturation ;;
  gamma <- getProp options "gamma" ;;
  _ <- setGroup customSettings "contrast" "gamma" gamma ;;
  sharpening <- getProp options "sharpening" ;;
  _ <- setGroup customSettings "sharpening" "sigma" sharpening ;;
  cropSize <- getProp options "cropSize" ;;
  _ <- setGroup customSettings "cropping" "faceDetectedSize" cropSize ;;
  ret customSettings.


Section ParseArgs.
(** [parseFloat], which the model leaves open: a function from values to
    values. *)
Variable parseFloat : val → val.









End ParseArgs.

(** ** Reading a heap *)

(** The value at the end of a path of own properties. *)
Fixpoint readPath (h : heap) (v : val) (path : list string) : option val :=
  match path with
  | [] => Some v
  | k :: path' =>
      match v with
      | VRef l =>
          match h !! l ≫= (λ o : obj, o !! k) with
          | Some x => readPath h x path'
          | None => None
          end
      | _ => None
      end
  end.

(** [customSettings.cropping?.tightCropDetection] and the like, as a
    function of the heap. *)
Definition optLookupProperty (h : heap) (v : val) (k : string) : val :=
  match v with
  | VUndefined | VNull => VUndefined
  | _ => lookupProperty h v k
  end.

Definition readNumber (h : heap) (v : val) (path : list string) : option Q :=
  match readPath h v path with
  | Some (VNum q) => Some q
  | _ => None
  end.

Definition readBool (h : heap) (v : val) (path : list string) : option bool :=
  match readPath h v path with
  | Some (VBool b) => Some b
  | _ => None
  end.

(** [config.brightness], when all its fields are numbers. *)
Definition readBrightness (h : heap) (config : val) : option BrightnessConfig :=
  let field k := readNumber h config ["brightness"; k] in
  b ← field "base";
  d ← field "darkImages";
  md ← field "mediumDarkImages";
  br ← field "brightImages";
  dt ← field "darkThreshold";
  mt ← field "mediumThreshold";
  bt ← field "brightThreshold";
  f ← field "final";
  Some (mkBrightness b d md br dt mt bt f).

(** [config.cropping], when all its fields have their expected types. *)
Definition readCropping (h : heap) (config : val) : option CroppingConfig :=
  let field k := readNumber h config ["cropping"; k] in
  let tight k := readNumber h config ["cropping"; "tightCropDetection"; k] in
  fd ← field "faceDetectedSize";
  fb ← field "fallbackSize";
  en ← readBool h config ["cropping"; "tightCropDetection"; "enabled"];
  rt ← tight "faceToImageRatioThreshold";
  et ← tight "faceEdgeDistanceThreshold";
  lc ← tight "looseCropSize";
  sc ← tight "skipCropSize";
  vo ← field "faceVerticalOffset";
  lt ← field "landscapeThreshold";
  ll ← field "fallbackLandscapeTop";
  lp ← field "fallbackPortraitTop";
  Some (mkCropping fd fb (mkThreshold en rt et lc sc) vo lt ll lp).

(** The [brightness] and [cropping] groups of [processingConfig]. *)
Definition defaultBrightness : BrightnessConfig :=
  {| base := 1.2; darkImages := 1.16; mediumDarkImages := 1.12;
     brightImages := 1.05; darkThreshold := 100; mediumThreshold := 140;
     brightThreshold := 180; final := 1.01 |}.

Definition defaultCropping : CroppingConfig :=
  {| faceDetectedSize := 0.65;
     fallbackSize := 0.8;
     tightCropDetection :=
       {| enabled := true;
          faceToImageRatioThreshold := 0.03;
          faceEdgeDistanceThreshold := 0.20;
          looseCropSize := 0.95;
          skipCropSize := 1.0 |};
     faceVerticalOffset := 0.1;
     landscapeThreshold := 1.2;
     fallbackLandscapeTop := 0.25;
     fallbackPortraitTop := 0.2 |}.

Local Close Scope string_scope.

(** ** Heap invariants and snapshots *)

(** A reference is valid when it points into the heap. *)
Definition validb (h : heap) (v : val) : bool :=
  match v with
  | VRef l => bool_decide (l < length h)%nat
  | _ => true
  end.

(** Every reference stored in the heap points into the heap. *)
Definition wellFormed (h : heap) : bool :=
  forallb (λ o : obj, forallb (λ kv, validb h kv.2) (map_to_list o)) h.

Definition nonNullish (v : val) : bool :=
  match v with
  | VUndefined | VNull => false
  | _ => true
  end.

Definition isRef (v : val) : bool :=
  match v with
  | VRef _ => true
  | _ => false
  end.

(** The same invariant as a property of the cells. *)
Definition closed (h : heap) : Prop :=
  ∀ l (o : obj) k v, h !! l = Some o → o !! k = Some v → validb h v = true.

(** A computation only allocates: the heap it returns extends the heap it
    was started on. *)
Definition extends {A} (m : JS A) : Prop :=
  ∀ h, h `prefix_of` (m h).2.

(** A computation only allocates, and what it returns, if it returns, is a
    reference to a cell it allocated. *)
Definition returnsFresh (m : JS val) : Prop :=
  ∀ h, h `prefix_of` (m h).2 ∧
       match (m h).1 with
       | Return v => ∃ l, v = VRef l ∧ (length h ≤ l < length (m h).2)%nat
       | Throw _ => True
       end.

(** What a value looks like from outside, down to a given depth: the
    locations are forgotten, the properties kept. *)
#[warnings="-register-all"]
Inductive tree :=
  | Leaf (v : val)
  | Cut
  | Node (fields : gmap string tree).

Fixpoint snapshot (depth : nat) (h : heap) (v : val) : tree :=
  match v with
  | VRef l =>
      match depth with
      | O => Cut
      | S d => Node (snapshot d h <$> default ∅ (h !! l))
      end
  | _ => Leaf v
  end.

Definition snapshotOutcome (depth : nat) (h : heap) (r : outcome val) : outcome tree :=
  match r with
  | Return v => Return (snapshot depth h v)
  | Throw e => Throw e
  end.

(** ** What [getConfig] and [mergeWith] compute, as functions of the heap *)

(** The value of [presets[presetName] || presets.default] right after the
    module is loaded. *)
Definition baseOf (presetName : option string) : val :=
  let p := lookupProperty configHeap presets (default "default"%string presetName) in
  if toBoolean p then p else lookupProperty configHeap presets "default".

(** The five preset objects. *)
Definition presetValues : list val :=
  lookupProperty configHeap presets <$> presetNames.

(** The groups every configuration has. *)
Definition configGroups : list string :=
  ["brightness"; "color"; "contrast"; "sharpening"; "cropping"; "output"]%string.

(** [{ ...base.group, ...customSettings.group }] *)
Definition mergedGroup (h : heap) (base customSettings : val) (group : string) : obj :=
  ownProperties h (lookupProperty h customSettings group)
  ∪ ownProperties h (lookupProperty h base group).

Definition mergedTight (h : heap) (base customSettings : val) : obj :=
  ownProperties h
    (optLookupProperty h (lookupProperty h customSettings "cropping") "tightCropDetection")
  ∪ ownProperties h
      (lookupProperty h (lookupProperty h base "cropping") "tightCropDetection").

Definition mergedCropping (h : heap) (base customSettings tight : val) : obj :=
  <["tightCropDetection"%string := tight]>
    (ownProperties h (lookupProperty h customSettings "cropping")
     ∪ ownProperties h (lookupProperty h base "cropping")).

Definition mergedConfig (h : heap) (base customSettings : val) (n : nat) : obj :=
  <["output"%string := VRef (n + 6)]>
  (<["cropping"%string := VRef (n + 5)]>
  (<["sharpening"%string := VRef (n + 3)]>
  (<["contrast"%string := VRef (n + 2)]>
  (<["color"%string := VRef (n + 1)]>
  (<["brightness"%string := VRef n]>
  (ownProperties h customSettings ∪ ownProperties h base)))))).

(** The eight objects [mergeWith] allocates on a heap that extends [h] to
    [n] cells, in allocation order; the last one is the result. *)
Definition mergedObjects (h : heap) (base customSettings : val) (n : nat) : list obj :=
  [mergedGroup h base customSettings "brightness";
   mergedGroup h base customSettings "color";
   mergedGroup h base customSettings "contrast";
   mergedGroup h base customSettings "sharpening";
   mergedTight h base customSettings;
   mergedCropping h base customSettings (VRef (n + 4));
   mergedGroup h base customSettings "output";
   mergedConfig h base customSettings n].

(** ** Properties the claims are stated with *)

(** The four boundary equations of the brightness tiers. *)
Definition tierBoundaries (b : BrightnessConfig) : Prop :=
  brightnessAdjustment (darkThreshold b - 1) b = darkImages b ∧
  brightnessAdjustment (darkThreshold b) b = mediumDarkImages b ∧
  brightnessAdjustment (brightThreshold b + 1) b = brightImages b ∧
  brightnessAdjustment (mediumThreshold b) b = base b.

(** [r] is the first, respectively the last, box of maximal area of [ds]. *)
Definition firstMaximal (ds : list FaceBox) (r : FaceBox) : Prop :=
  ∃ before after,
    ds = before ++ r :: after ∧
    (∀ b, b ∈ before → (area b < area r)%Q) ∧
    (∀ b, b ∈ after → (area b <= area r)%Q).

Definition lastMaximal (ds : list FaceBox) (r : FaceBox) : Prop :=
  ∃ before after,
    ds = before ++ r :: after ∧
    (∀ b, b ∈ before → (area b <= area r)%Q) ∧
    (∀ b, b ∈ after → (area b < area r)%Q).

(** [customSettings.cropping?.tightCropDetection], read on the heap. *)
Definition overrideTight (h : heap) (customSettings : val) : val :=
  optLookupProperty h (lookupProperty h customSettings "cropping") "tightCropDetection".


(** The rectangle lies inside the image. *)
Definition insideImage (m : ImageMetadata) (r : CropRegion) : Prop :=
  0 ≤ crop_left r ∧ 0 ≤ crop_top r ∧
  crop_left r + crop_width r ≤ width m ∧
  crop_top r + crop_height r ≤ height m.

(** The invariant of a crop region: inside the image and not empty. *)
Definition validRegion (m : ImageMetadata) (r : CropRegion) : Prop :=
  insideImage m r ∧ 0 < crop_width r ∧ 0 < crop_height r.

(** [image.extract(region)] as [smartCropImage] observes it when the
    pipeline runs: the image library refuses a region with a side of zero
    and a region that leaves the image, and the promise rejects; every
    other region is extracted.  The library is not among the sources; this
    is the one fact about it that the crop depends on. *)
Definition extract (m : ImageMetadata) (r : CropRegion) : outcome CropRegion :=
  if (0 <=? crop_left r) && (0 <=? crop_top r)
     && (0 <? crop_width r) && (0 <? crop_height r)
     && (crop_left r + crop_width r <=? width m)
     && (crop_top r + crop_height r <=? height m)
  then Return r
  else Throw "extract_area: bad extract area"%string.

(** Modelled from the spec: the first branch of the Crop Region Planner
    (section 4.3), which no [smartCropImage] under the sources has: side
    [min(width, height) * looseCropSize], centred on the face centre, no
    vertical offset, then the same clamping as the other branches. *)
Definition looseCropRegion (m : ImageMetadata) (box : FaceBox)
    (c : CroppingConfig) : CropRegion :=
  let side :=
    Qfloor (inject_Z (Z.min (width m) (height m))
            * looseCropSize (tightCropDetection c)) in
  let '(cx, cy) := faceCenterOf box in
  let left := Z.max 0 (Z.min (Qfloor (cx - inject_Z side / 2)) (width m - side)) in
  let top := Z.max 0 (Z.min (Qfloor (cy - inject_Z side / 2)) (height m - side)) in
  {| crop_left := left; crop_top := top;
     crop_width := Z.min side (width m - left);
     crop_height := Z.min side (height m - top) |}.

(** ** Properties the further theorems are stated with *)

(** The fraction of the shorter side that [if (faceCenter)] selects. *)
Definition cropSize (faceCenter : option (Q * Q)) (c : CroppingConfig) : Q :=
  match faceCenter with
  | Some _ => faceDetectedSize c
  | None => fallbackSize c
  end.

(** [smartCropImage] from the point where the floored sides [cropWidth]
    and [cropHeight] are known: position, clamping to the image and the
    final size adjustment.  [cropRegion] is this at the sides it computes;
    stated for every side, a property does not depend on how the product
    [Math.min(width, height) * size] is rounded. *)
Definition placeCrop (m : ImageMetadata) (faceCenter : option (Q * Q))
    (c : CroppingConfig) (cropWidth cropHeight : Z) : CropRegion :=
  let '(left0, top0) :=
    match faceCenter with
    | Some (fx, fy) =>
        let left := Qfloor (fx - inject_Z cropWidth / 2) in
        let top := Qfloor (fy - inject_Z cropHeight / 2) in
        let top := Qfloor (inject_Z top + inject_Z cropHeight * faceVerticalOffset c) in
        (left, top)
    | None =>
        let aspectRatio := (inject_Z (width m) / inject_Z (height m))%Q in
        let left := Qfloor (inject_Z (width m - cropWidth) / 2) in
        let top :=
          if Qltb (landscapeThreshold c) aspectRatio
          then Qfloor (inject_Z (height m) * fallbackLandscapeTop c)
          else Qfloor (inject_Z (height m) * fallbackPortraitTop c) in
        (left, top)
    end in
  let left := Z.max 0 (Z.min left0 (width m - cropWidth)) in
  let top := Z.max 0 (Z.min top0 (height m - cropHeight)) in
  let actualCropWidth := Z.min cropWidth (width m - left) in
  let actualCropHeight := Z.min cropHeight (height m - top) in
  {| crop_left := left; crop_top := top;
     crop_width := actualCropWidth; crop_height := actualCropHeight |}.

(** A brightness configuration with another [mediumDarkImages]. *)
Definition withMediumDarkImages (x : Q) (b : BrightnessConfig) : BrightnessConfig :=
  {| base := base b; darkImages := darkImages b; mediumDarkImages := x;
     brightImages := brightImages b; darkThreshold := darkThreshold b;
     mediumThreshold := mediumThreshold b; brightThreshold := brightThreshold b;
     final := final b |}.



(** The groups [mergeConfig] merges one level deep. *)
Definition flatGroups : list string :=
  ["brightness"; "color"; "contrast"; "sharpening"; "output"]%string.

(** Every reference an object holds points into the heap. *)
Definition validObject (h : heap) (o : obj) : Prop :=
  ∀ k x, o !! k = Some x → validb h x = true.

(** The paths of the result at which [mergeConfig] puts an object of its
    own. *)
Definition mergedPaths : list (list string) :=
  [["brightness"]; ["color"]; ["contrast"]; ["sharpening"]; ["cropping"];
   ["output"]; ["cropping"; "tightCropDetection"]]%string.

(** The options of the tool: option, group and field it sets. *)
Definition optionTable : list (string * string * string) :=
  [("brightness", "brightness", "base");
   ("saturation", "color", "saturation");
   ("gamma", "contrast", "gamma");
   ("sharpening", "sharpening", "sigma");
   ("cropSize", "cropping", "faceDetectedSize")]%string.

(** What one statement of [buildCustomSettings] does to the object under
    construction and to the cells allocated after it, [n] being the
    location of the object. *)
Definition assigned (h : heap) (options : val) (n : nat)
    (st : obj * list obj) (entry : string * string * string) : obj * list obj :=
  let x := lookupProperty h options entry.1.1 in
  if isUndefined x then st
  else (<[entry.1.2 := VRef (n + S (length st.2))]> st.1,
        st.2 ++ [<[entry.2 := x]> ∅]).

Definition builtSettings (h : heap) (options : val) : obj * list obj :=
  fold_left (assigned h options (length h)) optionTable (∅, []).

(** The groups a table of options sets. *)
Definition groupsOf (t : list (string * string * string)) : list string :=
  (λ e, e.1.2) <$> t.

(** What the statements of [buildCustomSettings] keep true of the object
    under construction and of the cells after it. *)
Definition built (h : heap) (st : obj * list obj) : Prop :=
  (∀ k v, st.1 !! k = Some v →
     ∃ j, v = VRef (length h + S j) ∧ (j < length st.2)%nat) ∧
  Forall (validObject h) st.2.

(** The three thresholds of a brightness configuration. *)
Definition thresholds (b : BrightnessConfig) : Q * Q * Q :=
  (darkThreshold b, mediumThreshold b, brightThreshold b).

(** ** Inputs used in examples *)

(** A configuration with [darkThreshold] above [mediumThreshold]. *)
Definition crossedBrightness : BrightnessConfig :=
  {| base := 1.2; darkImages := 1.16; mediumDarkImages := 1.12;
     brightImages := 1.05; darkThreshold := 150; mediumThreshold := 140;
     brightThreshold := 180; final := 1.01 |}.

(** Two boxes of the same size at different places. *)
Definition boxA : FaceBox := {| box_x := 0; box_y := 0; box_width := 10; box_height := 10 |}.
Definition boxB : FaceBox := {| box_x := 50; box_y := 50; box_width := 10; box_height := 10 |}.

(** A one-pixel image, and the image and face box of scenario B of the
    specification. *)
Definition onePixel : ImageMetadata := {| width := 1; height := 1 |}.
Definition squareImage : ImageMetadata := {| width := 1000; height := 1000 |}.
Definition closeUpBox : FaceBox :=
  {| box_x := 187; box_y := 513; box_width := 327; box_height := 293 |}.

(** Override objects, as the cells they occupy right after the module's
    own: [looseCropOverride] is the override of scenario D,
    [{cropping: {tightCropDetection: {looseCropSize: 0.98}}}];
    [unknownFieldOverride] is [{foo: 1}]; [emptyOverride] is [{}].  Each
    override is the last cell of its list. *)
Definition looseCropCells : heap :=
  [{[ "looseCropSize"%string := N 0.98 ]};
   {[ "tightCropDetection"%string := VRef 25 ]};
   {[ "cropping"%string := VRef 26 ]}].
Definition looseCropOverride : val := VRef 27.


Definition emptyCells : heap := [∅].
Definition emptyOverride : val := VRef 25.

(** The options [{preset: 'vibrant', brightness: 1.3}] of the command line
    tool, in the cell after the module's own. *)
Definition brightnessOptionCells : heap :=
  [{[ "preset"%string := VStr "vibrant"; "brightness"%string := N 1.3 ]}].
Definition brightnessOption : val := VRef 25.

(** What the code relies on about a preset object. *)
Record presetFacts (b : val) : Prop := {
  preset_valid : validb configHeap b = true;
  preset_nonNullish : nonNullish b = true;
  preset_cropping : lookupProperty configHeap b "cropping" = VRef 5;
  preset_groups : dom (ownProperties configHeap b) = list_to_set configGroups
}.

(** ** Proof automation *)

(** Equalities between closed terms, checked by evaluation. *)
Ltac by_evaluation :=
  lazymatch goal with
  | |- ?a = _ => vm_cast_no_check (eq_refl a)
  end.

(** Decidable propositions about closed terms, likewise. *)
Ltac by_decision :=
  lazymatch goal with
  | |- ?P =>
      let d := constr:(_ : Decision P) in
      refine (@bool_decide_unpack P d _); vm_cast_no_check I
  end.

(** Case analysis on membership in a list given by its elements. *)
Ltac cases_of H :=
  repeat (apply elem_of_cons in H as [-> | H]);
  [idtac .. | apply elem_of_nil in H; destruct H].



(** * Theorems *)

(** ** Comparisons *)

Lemma Qltb_lt (a b : Q) : Qltb a b = true ↔ (a < b)%Q.
Proof.
  unfold Qltb. rewrite negb_true_iff, <- not_true_iff_false, Qle_bool_iff.
  split; [apply Qnot_le_lt | apply Qlt_not_le].
Qed.

Lemma Qltb_ge (a b : Q) : Qltb a b = false ↔ (b <= a)%Q.
Proof.
  unfold Qltb. rewrite negb_false_iff. apply Qle_bool_iff.
Qed.

(** ** Brightness tiers *)

Section Tiers.
Variable b : BrightnessConfig.

(** The chain read as a table: the first test that succeeds decides. *)
Lemma tier_dark avg :
  (avg < darkThreshold b)%Q → brightnessAdjustment avg b = darkImages b.
Proof.
  intros H. unfold brightnessAdjustment.
  apply Qltb_lt in H. now rewrite H.
Qed.

Lemma tier_mediumDark avg :
  (darkThreshold b <= avg)%Q → (avg < mediumThreshold b)%Q →
  brightnessAdjustment avg b = mediumDarkImages b.
Proof.
  intros H1 H2. unfold brightnessAdjustment.
  apply Qltb_ge in H1. apply Qltb_lt in H2. now rewrite H1, H2.
Qed.

Lemma tier_bright avg :
  (darkThreshold b <= avg)%Q → (mediumThreshold b <= avg)%Q →
  (brightThreshold b < avg)%Q →
  brightnessAdjustment avg b = brightImages b.
Proof.
  intros H1 H2 H3. unfold brightnessAdjustment.
  apply Qltb_ge in H1, H2. apply Qltb_lt in H3. now rewrite H1, H2, H3.
Qed.

Lemma tier_base avg :
  (darkThreshold b <= avg)%Q → (mediumThreshold b <= avg)%Q →
  (avg <= brightThreshold b)%Q →
  brightnessAdjustment avg b = base b.
Proof.
  intros H1 H2 H3. unfold brightnessAdjustment.
  apply Qltb_ge in H1, H2, H3. now rewrite H1, H2, H3.
Qed.
End Tiers.

(** C4, as stated, fails: with [darkThreshold = 150 > mediumThreshold = 140]
    a luminance of exactly [darkThreshold] is neither below
    [darkThreshold] nor below [mediumThreshold], so it gets the [base]
    multiplier 1.2 and not [mediumDarkImages] 1.12. *)
Lemma tierBoundaries_crossed_fails : ¬ tierBoundaries crossedBrightness.
Proof.
  intros (_ & H & _). vm_compute in H. discriminate H.
Qed.

(** C4, amended: for every brightness configuration and every average
    luminance the chain checks the buckets in the fixed order dark,
    medium-dark, bright, base, and the first test that succeeds decides:
    below [darkThreshold] the multiplier is [darkImages]; otherwise, below
    [mediumThreshold], it is [mediumDarkImages]; otherwise, above
    [brightThreshold], it is [brightImages]; otherwise it is [base].  For
    every configuration whose thresholds are ordered
    [darkThreshold < mediumThreshold <= brightThreshold] the buckets are
    the intervals these thresholds cut, and the boundary equations hold:
    [darkThreshold - 1] is dark, [darkThreshold] is medium-dark,
    [brightThreshold + 1] is bright, [mediumThreshold] and
    [brightThreshold] are base. *)
Theorem tierBoundaries_ordered (b : BrightnessConfig) :
  (∀ avg,
     ((avg < darkThreshold b)%Q → brightnessAdjustment avg b = darkImages b) ∧
     ((darkThreshold b <= avg)%Q → (avg < mediumThreshold b)%Q →
      brightnessAdjustment avg b = mediumDarkImages b) ∧
     ((darkThreshold b <= avg)%Q → (mediumThreshold b <= avg)%Q →
      (brightThreshold b < avg)%Q →
      brightnessAdjustment avg b = brightImages b) ∧
     ((darkThreshold b <= avg)%Q → (mediumThreshold b <= avg)%Q →
      (avg <= brightThreshold b)%Q →
      brightnessAdjustment avg b = base b)) ∧
  ((darkThreshold b < mediumThreshold b)%Q →
   (mediumThreshold b <= brightThreshold b)%Q →
   tierBoundaries b ∧
   brightnessAdjustment (brightThreshold b) b = base b ∧
   ∀ avg,
     ((avg < darkThreshold b)%Q → brightnessAdjustment avg b = darkImages b) ∧
     ((darkThreshold b <= avg)%Q → (avg < mediumThreshold b)%Q →
      brightnessAdjustment avg b = mediumDarkImages b) ∧
     ((mediumThreshold b <= avg)%Q → (avg <= brightThreshold b)%Q →
      brightnessAdjustment avg b = base b) ∧
     ((brightThreshold b < avg)%Q → brightnessAdjustment avg b = brightImages b)).
Proof.
  split.
  - intros avg. repeat split.
    + apply tier_dark.
    + apply tier_mediumDark.
    + apply tier_bright.
    + apply tier_base.
  - intros Hdm Hmb. unfold tierBoundaries. repeat split.
    + apply tier_dark. lra.
    + apply tier_mediumDark; lra.
    + apply tier_bright; lra.
    + apply tier_base; lra.
    + apply tier_base; lra.
    + apply tier_dark.
    + apply tier_mediumDark.
    + intros H1 H2. apply tier_base; lra.
    + intros H. apply tier_bright; lra.
Qed.

Lemma tierBoundaries_ordered_witness :
  tierBoundaries defaultBrightness ∧
  brightnessAdjustment (brightThreshold defaultBrightness) defaultBrightness
  = base defaultBrightness ∧
  ∀ avg,
    ((avg < darkThreshold defaultBrightness)%Q →
     brightnessAdjustment avg defaultBrightness = darkImages defaultBrightness) ∧
    ((darkThreshold defaultBrightness <= avg)%Q →
     (avg < mediumThreshold defaultBrightness)%Q →
     brightnessAdjustment avg defaultBrightness
     = mediumDarkImages defaultBrightness) ∧
    ((mediumThreshold defaultBrightness <= avg)%Q →
     (avg <= brightThreshold defaultBrightness)%Q →
     brightnessAdjustment avg defaultBrightness = base defaultBrightness) ∧
    ((brightThreshold defaultBrightness < avg)%Q →
     brightnessAdjustment avg defaultBrightness = brightImages defaultBrightness).
Proof.
  apply (proj2 (tierBoundaries_ordered defaultBrightness)); vm_compute; congruence.
Defined.

(** ** Face selection *)

Lemma largerFace_step (pre : list FaceBox) (acc c : FaceBox) :
  lastMaximal pre acc → lastMaximal (pre ++ [c]) (largerFace acc c).
Proof.
  intros (l1 & l2 & -> & Hl1 & Hl2). unfold largerFace.
  destruct (Qltb (area c) (area acc)) eqn:E.
  - apply Qltb_lt in E.
    exists l1, (l2 ++ [c]). split; [now rewrite <- app_assoc | split; [exact Hl1 |]].
    intros x [Hx | Hx]%elem_of_app; [now apply Hl2 |].
    apply list_elem_of_singleton in Hx. now subst.
  - apply Qltb_ge in E.
    exists (l1 ++ acc :: l2), []. split; [reflexivity | split].
    + intros x [Hx | Hx]%elem_of_app.
      * apply Hl1 in Hx. lra.
      * apply elem_of_cons in Hx as [-> | Hx]; [exact E |].
        apply Hl2 in Hx. lra.
    + intros x Hx. now apply elem_of_nil in Hx.
Qed.

Lemma fold_largerFace (ds pre : list FaceBox) (acc : FaceBox) :
  lastMaximal pre acc → lastMaximal (pre ++ ds) (fold_left largerFace ds acc).
Proof.
  revert pre acc. induction ds as [| c ds IH]; intros pre acc H; simpl.
  - now rewrite app_nil_r.
  - replace (pre ++ c :: ds) with ((pre ++ [c]) ++ ds) by now rewrite <- app_assoc.
    apply IH. now apply largerFace_step.
Qed.

(** C5, as stated, fails: of two boxes of equal area the reducer keeps the
    second ([prev.box.area > current.box.area] is false on a tie, so
    [current] wins), not the first-seen one. *)
Lemma largestFace_tie_not_first :
  ¬ ∃ r, largestFace [boxA; boxB] = Some r ∧ firstMaximal [boxA; boxB] r.
Proof.
  intros (r & Hr & before & after & Hds & Hb & _).
  vm_compute in Hr. injection Hr as <-.
  destruct before as [| x before].
  - discriminate Hds.
  - injection Hds as <- Hds.
    specialize (Hb boxA (list_elem_of_here _ _)). vm_compute in Hb. discriminate Hb.
Qed.

(** C5, amended: for every non-empty list of detected boxes exactly one box
    is retained, it has maximal area, and among boxes of equal maximal area
    it is the last one in the list: every earlier box is at most as large,
    every later box is strictly smaller. *)
Theorem largestFace_last_maximal (d : FaceBox) (ds : list FaceBox) :
  ∃ r, largestFace (d :: ds) = Some r ∧ lastMaximal (d :: ds) r.
Proof.
  exists (fold_left largerFace ds d). split; [reflexivity |].
  apply (fold_largerFace ds [d] d).
  exists [], []. split; [reflexivity | split]; intros x Hx; now apply elem_of_nil in Hx.
Qed.

Lemma largestFace_tie_last : largestFace [boxA; boxB] = Some boxB.
Proof. reflexivity. Qed.

(** ** Crop arithmetic *)

(** Clamping a nominal offset [l0] of a crop of side [cw] into an image of
    extent [w], then shrinking the side to what is left. *)
Lemma clamp_inside (l0 cw w : Z) :
  let l := Z.max 0 (Z.min l0 (w - cw)) in
  0 ≤ l ∧ l + Z.min cw (w - l) ≤ w.
Proof. cbv zeta. lia. Qed.

Lemma clamp_positive (l0 cw w : Z) :
  0 < w → 1 ≤ cw →
  0 < Z.min cw (w - Z.max 0 (Z.min l0 (w - cw))).
Proof. lia. Qed.

(** The rectangle [cropRegion] returns is a clamped square of side
    [floor(squareSize)]. *)
Lemma cropRegion_shape (m : ImageMetadata) (fc : option (Q * Q)) (c : CroppingConfig) :
  ∃ l0 t0,
    let side := Qfloor (squareSize m fc c) in
    let l := Z.max 0 (Z.min l0 (width m - side)) in
    let t := Z.max 0 (Z.min t0 (height m - side)) in
    cropRegion m fc c =
      {| crop_left := l; crop_top := t;
         crop_width := Z.min side (width m - l);
         crop_height := Z.min side (height m - t) |}.
Proof.
  unfold cropRegion. destruct fc as [[fx fy] |].
  - eexists _, _. reflexivity.
  - destruct (Qltb _ _); eexists _, _; reflexivity.
Qed.

Lemma floor_at_least_one (x : Q) : (1 <= x)%Q → 1 ≤ Qfloor x.
Proof.
  intros H. change 1 with (Qfloor (inject_Z 1)). now apply Qfloor_resp_le.
Qed.

(** C2, as stated, fails: for a one-pixel image the nominal side is
    [floor(1 * 0.8) = 0], so the rectangle handed to [extract] has width
    and height 0. *)
Lemma smartCropImage_onePixel_empty :
  ¬ validRegion onePixel (smartCropImage onePixel None defaultCropping).
Proof.
  intros (_ & Hw & _). vm_compute in Hw. discriminate Hw.
Qed.

(** X1: the planner never reads the tight-crop thresholds: replacing
    [cropping.tightCropDetection] by any other value leaves the rectangle
    as it is, with or without a face. *)
Lemma cropRegion_ignores_tightCropDetection (m : ImageMetadata)
    (fc : option (Q * Q)) (c : CroppingConfig) (t : ThresholdConfig) :
  cropRegion m fc
    {| faceDetectedSize := faceDetectedSize c;
       fallbackSize := fallbackSize c;
       tightCropDetection := t;
       faceVerticalOffset := faceVerticalOffset c;
       landscapeThreshold := landscapeThreshold c;
       fallbackLandscapeTop := fallbackLandscapeTop c;
       fallbackPortraitTop := fallbackPortraitTop c |}
  = cropRegion m fc c.
Proof. destruct fc as [[fx fy] |]; reflexivity. Qed.

(** C1 on the code, at scenario B of the specification (image 1000x1000,
    face box 327x293 at (187, 513), default preset): the verdict is tight,
    the specification asks for the loose crop of side 950 centred on the
    face, which after clamping is [(0, 50, 950, 950)]; [smartCropImage]
    takes the [faceDetectedSize] branch instead, side 650 with the vertical
    offset applied, and returns [(25, 350, 650, 650)]. *)
Theorem smartCropImage_tight_not_loosened :
  isTight closeUpBox squareImage (tightCropDetection defaultCropping) = true ∧
  looseCropRegion squareImage closeUpBox defaultCropping
  = {| crop_left := 0; crop_top := 50; crop_width := 950; crop_height := 950 |} ∧
  smartCropImage squareImage (Some [closeUpBox]) defaultCropping
  = {| crop_left := 25; crop_top := 350; crop_width := 650; crop_height := 650 |}.
Proof. repeat split; vm_compute; reflexivity. Qed.

(** * The configuration module *)

#[local] Opaque configHeap.

(** ** The monad *)

Lemma bind_Return {A B} (m : JS A) (f : A → JS B) h a h' :
  m h = (Return a, h') → bind m f h = f a h'.
Proof. intros E. unfold bind. now rewrite E. Qed.

Lemma bind_Throw {A B} (m : JS A) (f : A → JS B) h e h' :
  m h = (Throw e, h') → bind m f h = (Throw e, h').
Proof. intros E. unfold bind. now rewrite E. Qed.

Lemma getProp_nonNullish v k h :
  nonNullish v = true → getProp v k h = (Return (lookupProperty h v k), h).
Proof. now destruct v. Qed.

Lemma optGetProp_eval v k h :
  optGetProp v k h = (Return (optLookupProperty h v k), h).
Proof. now destruct v. Qed.

Lemma objectLiteral_spreads a b h :
  objectLiteral [Spread a; Spread b] h
  = (Return (VRef (length h)), h ++ [ownProperties h b ∪ ownProperties h a]).
Proof.
  unfold objectLiteral. simpl. now rewrite (right_id_L ∅ (∪)).
Qed.

(** ** Frame properties of reads *)

Lemma wellFormed_closed h : wellFormed h = true → closed h.
Proof.
  unfold wellFormed, closed. intros H l o k v Hl Hk.
  rewrite forallb_forall in H.
  specialize (H o). rewrite forallb_forall in H.
  apply (H (proj1 (list_elem_of_In _ _) (list_elem_of_lookup_2 _ _ _ Hl)) (k, v)).
  apply list_elem_of_In. now apply elem_of_map_to_list.
Qed.

Lemma validb_app h e v : validb h v = true → validb (h ++ e) v = true.
Proof.
  destruct v; simpl; try done.
  rewrite !bool_decide_eq_true, length_app. lia.
Qed.

Lemma lookupProperty_app h e v k :
  validb h v = true → lookupProperty (h ++ e) v k = lookupProperty h v k.
Proof.
  destruct v; simpl; try done.
  rewrite bool_decide_eq_true. intros Hl. now rewrite lookup_app_l.
Qed.

Lemma optLookupProperty_app h e v k :
  validb h v = true → optLookupProperty (h ++ e) v k = optLookupProperty h v k.
Proof.
  intros Hv. destruct v; try done; now apply (lookupProperty_app h e).
Qed.

Lemma ownProperties_app h e v :
  validb h v = true → ownProperties (h ++ e) v = ownProperties h v.
Proof.
  destruct v; simpl; try done.
  rewrite bool_decide_eq_true. intros Hl. now rewrite lookup_app_l.
Qed.

Lemma objectPrototype_valid h k : validb h (objectPrototype k) = true.
Proof. unfold objectPrototype. now case_bool_decide. Qed.

Lemma lookupProperty_valid h v k :
  closed h → validb h (lookupProperty h v k) = true.
Proof.
  intros Hc. destruct v; simpl; try apply objectPrototype_valid.
  destruct (h !! l) as [o |] eqn:El; simpl; [| apply objectPrototype_valid].
  destruct (o !! k) as [x |] eqn:Ek; [| apply objectPrototype_valid].
  exact (Hc l o k x El Ek).
Qed.

Lemma optLookupProperty_valid h v k :
  closed h → validb h (optLookupProperty h v k) = true.
Proof.
  intros Hc. destruct v; try done; now apply lookupProperty_valid.
Qed.

Lemma stringProperties_valid h s k x :
  stringProperties s !! k = Some x → validb h x = true.
Proof.
  unfold stringProperties. intros H%elem_of_list_to_map_2.
  apply list_elem_of_lookup in H as [i H].
  rewrite list_lookup_imap in H.
  destruct (String.list_ascii_of_string s !! i); simpl in H; [| done].
  now injection H as _ <-.
Qed.

Lemma ownProperties_valid h v k x :
  closed h → ownProperties h v !! k = Some x → validb h x = true.
Proof.
  intros Hc. destruct v; simpl; try (now rewrite lookup_empty).
  - apply stringProperties_valid.
  - destruct (h !! l) as [o |] eqn:El; simpl; [| now rewrite lookup_empty].
    exact (Hc l o k x El).
Qed.

(** ** What [mergeWith] allocates *)

Section MergeWith.
Variables (h e : heap) (base customSettings : val).
Hypothesis Hclosed : closed h.
Hypothesis Hbase : validb h base = true.
Hypothesis Hcustom : validb h customSettings = true.
Hypothesis Hbase_nn : nonNullish base = true.
Hypothesis Hcustom_nn : nonNullish customSettings = true.

Lemma mergeGroup_eval (e' : heap) (group : string) :
  mergeGroup base customSettings group (h ++ e')
  = (Return (VRef (length (h ++ e'))),
     (h ++ e') ++ [mergedGroup h base customSettings group]).
Proof.
  unfold mergeGroup.
  rewrite (bind_Return _ _ _ _ _ (getProp_nonNullish _ _ _ Hbase_nn)).
  rewrite (bind_Return _ _ _ _ _ (getProp_nonNullish _ _ _ Hcustom_nn)).
  rewrite objectLiteral_spreads. unfold mergedGroup.
  rewrite !lookupProperty_app by assumption.
  rewrite !ownProperties_app by now apply lookupProperty_valid.
  reflexivity.
Qed.

Hypothesis Hcropping_nn : nonNullish (lookupProperty h base "cropping") = true.

Lemma mergeWith_eval :
  mergeWith base customSettings (h ++ e)
  = (Return (VRef (length (h ++ e) + 7)),
     (h ++ e) ++ mergedObjects h base customSettings (length (h ++ e))).
Proof.
  unfold mergeWith, mergedObjects.
  rewrite (bind_Return _ _ _ _ _ (mergeGroup_eval e _)).
  rewrite <- (app_assoc h e).
  rewrite (bind_Return _ _ _ _ _ (mergeGroup_eval _ _)).
  rewrite <- (app_assoc h).
  rewrite (bind_Return _ _ _ _ _ (mergeGroup_eval _ _)).
  rewrite <- (app_assoc h).
  rewrite (bind_Return _ _ _ _ _ (mergeGroup_eval _ _)).
  rewrite <- (app_assoc h).
  rewrite (bind_Return _ _ _ _ _ (getProp_nonNullish _ _ _ Hbase_nn)).
  rewrite (bind_Return _ _ _ _ _ (getProp_nonNullish _ _ _ Hcustom_nn)).
  rewrite !lookupProperty_app by assumption.
  rewrite (bind_Return _ _ _ _ _ (getProp_nonNullish _ _ _ Hcropping_nn)).
  rewrite (bind_Return _ _ _ _ _ (optGetProp_eval _ _ _)).
  rewrite lookupProperty_app by now apply lookupProperty_valid.
  rewrite optLookupProperty_app by now apply lookupProperty_valid.
  rewrite (bind_Return _ _ _ _ _ (objectLiteral_spreads _ _ _)).
  rewrite !ownProperties_app
    by (apply lookupProperty_valid || apply optLookupProperty_valid; assumption).
  rewrite <- (app_assoc h).
  unfold bind at 1. unfold objectLiteral at 1. cbn [fold_left define].
  rewrite (right_id_L ∅ (∪)).
  rewrite !ownProperties_app by (apply lookupProperty_valid; assumption).
  rewrite <- (app_assoc h).
  rewrite (bind_Return _ _ _ _ _ (mergeGroup_eval _ _)).
  rewrite <- (app_assoc h).
  unfold objectLiteral. cbn [fold_left define].
  rewrite (right_id_L ∅ (∪)).
  rewrite !ownProperties_app by assumption.
  unfold mergedTight, mergedCropping, mergedConfig.
  rewrite !length_app. cbn [length].
  rewrite <- !app_assoc. cbn [app].
  rewrite <- !Nat.add_assoc. cbn [Nat.add]. reflexivity.
Qed.
End MergeWith.

(** ** The module heap *)

Lemma configHeap_closed : closed configHeap.
Proof. apply wellFormed_closed. by_evaluation. Qed.

Lemma presets_cell :
  configHeap !! 24%nat
  = Some (<["default" := VRef 7]> (<["brighten" := VRef 10]>
         (<["subtle" := VRef 13]> (<["vibrant" := VRef 18]>
         (<["natural" := VRef 23]> (∅ : obj))))))%string.
Proof. by_evaluation. Qed.

Lemma presets_lookup (k : string) :
  lookupProperty configHeap presets k =
    if decide (k = "default"%string) then VRef 7
    else if decide (k = "brighten"%string) then VRef 10
    else if decide (k = "subtle"%string) then VRef 13
    else if decide (k = "vibrant"%string) then VRef 18
    else if decide (k = "natural"%string) then VRef 23
    else objectPrototype k.
Proof.
  unfold lookupProperty, presets. rewrite presets_cell.
  cbn [mbind option_bind].
  rewrite !lookup_insert, lookup_empty.
  repeat case_decide; congruence.
Qed.

Lemma presets_valid : validb configHeap presets = true.
Proof. by_evaluation. Qed.

Lemma getConfig_eval (presetName : option string) (later : heap) :
  getConfig presetName (configHeap ++ later)
  = (Return (baseOf presetName), configHeap ++ later).
Proof.
  unfold getConfig, baseOf.
  rewrite (bind_Return _ _ _ _ _ (getProp_nonNullish presets _ _ eq_refl)).
  rewrite lookupProperty_app by exact presets_valid.
  destruct (toBoolean _); [reflexivity |].
  rewrite (getProp_nonNullish presets _ _ eq_refl).
  now rewrite lookupProperty_app by exact presets_valid.
Qed.

Lemma baseOf_default : baseOf (Some "default"%string) = VRef 7.
Proof. by_evaluation. Qed.

Lemma baseOf_absent : baseOf None = VRef 7.
Proof. by_evaluation. Qed.

Lemma baseOf_lookup (k : string) :
  baseOf (Some k) =
    if toBoolean (lookupProperty configHeap presets k)
    then lookupProperty configHeap presets k
    else VRef 7.
Proof.
  unfold baseOf. change (default "default"%string (Some k)) with k.
  destruct (toBoolean _); [reflexivity | by_evaluation].
Qed.

(** A name that is neither published nor inherited resolves to the
    default preset; an inherited name resolves to what [Object.prototype]
    holds under it. *)
Lemma baseOf_unknown (k : string) :
  k ∉ presetNames → k ∉ objectPrototypeNames → baseOf (Some k) = VRef 7.
Proof.
  intros Hp Ho. rewrite baseOf_lookup, presets_lookup.
  repeat (let E := fresh "E" in case_decide as E; [subst k; exfalso; apply Hp; by_decision |]).
  unfold objectPrototype. rewrite bool_decide_eq_false_2 by exact Ho. reflexivity.
Qed.

Lemma baseOf_inherited (k : string) :
  k ∈ objectPrototypeNames → baseOf (Some k) = VBuiltin k.
Proof.
  intros Hk. rewrite baseOf_lookup, presets_lookup.
  repeat (let E := fresh "E" in case_decide as E;
          [subst k; exfalso; revert Hk; refine (proj1 (bool_decide_eq_false _) _); by_evaluation |]).
  unfold objectPrototype. rewrite bool_decide_eq_true_2 by exact Hk. reflexivity.
Qed.

Lemma presetValues_eq :
  presetValues = [VRef 7; VRef 10; VRef 13; VRef 18; VRef 23].
Proof. by_evaluation. Qed.

Lemma baseOf_preset (name : option string) :
  (∀ k, name = Some k → k ∉ objectPrototypeNames) →
  baseOf name ∈ presetValues.
Proof.
  intros Hn. rewrite presetValues_eq. destruct name as [k |].
  - specialize (Hn k eq_refl). rewrite baseOf_lookup, presets_lookup.
    repeat (let E := fresh "E" in case_decide as E; [cbn [toBoolean]; set_solver |]).
    unfold objectPrototype. rewrite bool_decide_eq_false_2 by exact Hn.
    cbn [toBoolean]. set_solver.
  - rewrite baseOf_absent. set_solver.
Qed.

Lemma presetValues_facts (b : val) : b ∈ presetValues → presetFacts b.
Proof.
  rewrite presetValues_eq. intros H.
  repeat (apply elem_of_cons in H as [-> | H]).
  1-5: (split; by_evaluation).
  apply elem_of_nil in H. destruct H.
Qed.

Lemma cropping_tight :
  lookupProperty configHeap (VRef 5) "tightCropDetection" = VRef 4.
Proof. by_evaluation. Qed.

Lemma closed_alloc (h : heap) (o : obj) :
  closed h →
  (∀ k v, o !! k = Some v → validb (h ++ [o]) v = true) →
  closed (h ++ [o]).
Proof.
  intros Hc Ho l o' k v Hl Hk.
  apply lookup_app_Some in Hl as [Hl | [_ Hl]].
  - apply validb_app. exact (Hc l o' k v Hl Hk).
  - apply list_lookup_singleton_Some in Hl as [_ <-]. exact (Ho k v Hk).
Qed.

Lemma mergeConfig_absent (name : option string) (h : heap) :
  mergeConfig name VUndefined h = mergeConfig name (VRef (length h)) (h ++ [∅]).
Proof. unfold mergeConfig, bind, objectLiteral, ret; cbn [fold_left]; reflexivity. Qed.

Section MergeConfig.
Variables (later e : heap) (name : option string) (customSettings : val).
Let h := configHeap ++ later.
Hypothesis Hclosed : closed h.
Hypothesis Hcustom : validb h customSettings = true.
Hypothesis Hcustom_nn : nonNullish customSettings = true.
Hypothesis Hname : baseOf name ∈ presetValues.

Lemma mergeConfig_eval :
  mergeConfig name customSettings (h ++ e)
  = (Return (VRef (length (h ++ e) + 7)),
     (h ++ e) ++ mergedObjects h (baseOf name) customSettings (length (h ++ e))).
Proof.
  destruct (presetValues_facts _ Hname) as [Hv Hn Hc _].
  unfold mergeConfig.
  assert (match customSettings with
          | VUndefined => objectLiteral []
          | _ => ret customSettings
          end = ret customSettings) as ->.
  { clear -Hcustom_nn. destruct customSettings; try reflexivity; discriminate Hcustom_nn. }
  unfold bind at 1, ret at 1.
  subst h. rewrite <- (app_assoc configHeap later e).
  rewrite (bind_Return _ _ _ _ _ (getConfig_eval _ _)).
  rewrite (app_assoc configHeap later e).
  apply mergeWith_eval; try assumption.
  - apply validb_app. exact Hv.
  - rewrite lookupProperty_app by exact Hv. rewrite Hc. reflexivity.
Qed.
End MergeConfig.

(** ** Reading the result of [mergeWith] *)

Lemma readPath_step (h : heap) (l : loc) (o : obj) (k : string) (x : val)
    (path : list string) :
  h !! l = Some o → o !! k = Some x →
  readPath h (VRef l) (k :: path) = readPath h x path.
Proof. intros Hl Hk. cbn [readPath]. rewrite Hl. cbn [mbind option_bind]. rewrite Hk. reflexivity. Qed.

Lemma readPath_last (h : heap) (l : loc) (o : obj) (k : string) :
  h !! l = Some o → readPath h (VRef l) [k] = o !! k.
Proof.
  intros Hl. cbn [readPath]. rewrite Hl. cbn [mbind option_bind].
  destruct (o !! k); reflexivity.
Qed.

Section Result.
Variables (h0 h : heap) (base customSettings : val).
Let n := length h.
Let h' := h ++ mergedObjects h0 base customSettings n.

Lemma result_cell (i : nat) (o : obj) :
  mergedObjects h0 base customSettings n !! i = Some o →
  h' !! (n + i)%nat = Some o.
Proof.
  intros Hi. subst h' n. rewrite lookup_app_r by lia.
  replace (length h + i - length h)%nat with i by lia. exact Hi.
Qed.

Lemma result_config :
  h' !! (n + 7)%nat = Some (mergedConfig h0 base customSettings n).
Proof. apply result_cell. reflexivity. Qed.

Lemma result_cropping :
  h' !! (n + 5)%nat
  = Some (mergedCropping h0 base customSettings (VRef (n + 4))).
Proof. apply result_cell. reflexivity. Qed.

Lemma result_tight :
  h' !! (n + 4)%nat = Some (mergedTight h0 base customSettings).
Proof. apply result_cell. reflexivity. Qed.

Lemma mergedConfig_cropping :
  mergedConfig h0 base customSettings n !! "cropping"%string = Some (VRef (n + 5)).
Proof.
  unfold mergedConfig.
  rewrite lookup_insert_ne by discriminate. apply lookup_insert_eq.
Qed.

Lemma mergedConfig_groups :
  let c := mergedConfig h0 base customSettings n in
  c !! "brightness"%string = Some (VRef (n + 0)) ∧
  c !! "color"%string = Some (VRef (n + 1)) ∧
  c !! "contrast"%string = Some (VRef (n + 2)) ∧
  c !! "sharpening"%string = Some (VRef (n + 3)) ∧
  c !! "output"%string = Some (VRef (n + 6)).
Proof.
  cbv zeta. unfold mergedConfig. rewrite Nat.add_0_r. repeat split.
  - do 5 (rewrite lookup_insert_ne by discriminate). apply lookup_insert_eq.
  - do 4 (rewrite lookup_insert_ne by discriminate). apply lookup_insert_eq.
  - do 3 (rewrite lookup_insert_ne by discriminate). apply lookup_insert_eq.
  - do 2 (rewrite lookup_insert_ne by discriminate). apply lookup_insert_eq.
  - apply lookup_insert_eq.
Qed.

Lemma mergedConfig_other (k : string) :
  k ∉ configGroups →
  mergedConfig h0 base customSettings n !! k
  = (ownProperties h0 customSettings ∪ ownProperties h0 base) !! k.
Proof.
  intros Hk. unfold mergedConfig.
  do 6 (rewrite lookup_insert_ne by (intros <-; apply Hk; by_decision)).
  reflexivity.
Qed.

Lemma result_tight_path (k : string) :
  readPath h' (VRef (n + 7)) ["cropping"; "tightCropDetection"; k]%string
  = mergedTight h0 base customSettings !! k.
Proof.
  rewrite (readPath_step _ _ _ _ _ _ result_config mergedConfig_cropping).
  rewrite (readPath_step _ _ _ _ (VRef (n + 4)) _ result_cropping)
    by apply lookup_insert_eq.
  apply readPath_last, result_tight.
Qed.
End Result.

Lemma lookupProperty_ref (h : heap) (v : val) (k : string) (l' : loc) :
  lookupProperty h v k = VRef l' →
  ∃ l o, v = VRef l ∧ h !! l = Some o ∧ o !! k = Some (VRef l').
Proof.
  assert (objectPrototype k ≠ VRef l') as Hp
    by (unfold objectPrototype; case_bool_decide; discriminate).
  destruct v; cbn [lookupProperty]; try (intros E; destruct (Hp E)).
  destruct (h !! l) as [o |] eqn:El; cbn [mbind option_bind];
    [| intros E; destruct (Hp E)].
  destruct (o !! k) as [x |] eqn:Ek; [| intros E; destruct (Hp E)].
  intros ->. exists l, o. repeat split; assumption.
Qed.

Lemma absent_group (h : heap) (v : val) (k : string) :
  k ∉ objectPrototypeNames → readPath h v [k] = None →
  lookupProperty h v k = VUndefined.
Proof.
  intros Hk. assert (objectPrototype k = VUndefined) as Hp
    by (unfold objectPrototype; rewrite bool_decide_eq_false_2 by exact Hk; reflexivity).
  destruct v; cbn [readPath lookupProperty]; try (intros _; exact Hp).
  destruct (h !! l ≫= λ o : obj, o !! k); [discriminate | intros _; exact Hp].
Qed.

Lemma configHeap_length : length configHeap = 25%nat.
Proof. by_evaluation. Qed.

(** The [tightCropDetection] fields of a preset. *)
Lemma preset_tight_path (b : val) (k : string) :
  b ∈ presetValues →
  readPath configHeap b ["cropping"; "tightCropDetection"; k]%string
  = ownProperties configHeap (VRef 4) !! k.
Proof.
  intros [_ _ Hc _]%presetValues_facts.
  apply lookupProperty_ref in Hc as (l & o & -> & Hl & Ho).
  rewrite (readPath_step _ _ _ _ _ _ Hl Ho).
  destruct (lookupProperty_ref _ _ _ _ cropping_tight) as (l5 & o5 & E & Hl5 & Ho5).
  injection E as <-.
  rewrite (readPath_step _ _ _ _ _ _ Hl5 Ho5).
  destruct (lookup_lt_is_Some_2 configHeap 4) as [o4 Hl4];
    [rewrite configHeap_length; lia |].
  rewrite (readPath_last _ _ _ _ Hl4). cbn [ownProperties]. rewrite Hl4. reflexivity.
Qed.

Section Claims.
Variables (later : heap) (name : option string) (customSettings : val).
Let h := configHeap ++ later.
Hypothesis Hclosed : closed h.
Hypothesis Hcustom : validb h customSettings = true.
Hypothesis Hcustom_nn : nonNullish customSettings = true.
Hypothesis Hname : baseOf name ∈ presetValues.

Let result := VRef (length h + 7).
Let h' := h ++ mergedObjects h (baseOf name) customSettings (length h).

Lemma mergeConfig_returns :
  mergeConfig name customSettings h = (Return result, h').
Proof.
  pose proof (mergeConfig_eval later [] name customSettings
                Hclosed Hcustom Hcustom_nn Hname) as E.
  rewrite app_nil_r in E. exact E.
Qed.

Lemma merged_base_tight :
  ownProperties h
    (lookupProperty h (lookupProperty h (baseOf name) "cropping") "tightCropDetection")
  = ownProperties configHeap (VRef 4).
Proof.
  destruct (presetValues_facts _ Hname) as [Hv _ Hc _]. subst h.
  rewrite (lookupProperty_app _ _ _ _ Hv), Hc.
  rewrite lookupProperty_app by by_evaluation. rewrite cropping_tight.
  apply ownProperties_app. by_evaluation.
Qed.

Lemma merged_tight_untouched (k : string) :
  ownProperties h
    (optLookupProperty h (lookupProperty h customSettings "cropping")
       "tightCropDetection") !! k = None →
  readPath h' result ["cropping"; "tightCropDetection"; k]%string
  = readPath configHeap (baseOf name) ["cropping"; "tightCropDetection"; k]%string.
Proof.
  intros Hk. subst h' result.
  rewrite result_tight_path, (preset_tight_path _ _ Hname).
  unfold mergedTight. rewrite lookup_union_r by exact Hk.
  now rewrite merged_base_tight.
Qed.

Lemma merged_tight_overridden (k : string) (x : val) :
  ownProperties h
    (optLookupProperty h (lookupProperty h customSettings "cropping")
       "tightCropDetection") !! k = Some x →
  readPath h' result ["cropping"; "tightCropDetection"; k]%string = Some x.
Proof.
  intros Hk. subst h' result.
  rewrite result_tight_path. unfold mergedTight.
  now apply lookup_union_Some_l.
Qed.

End Claims.

(** ** Nothing is written: the heap only grows *)

Lemma extends_ret {A} (a : A) : extends (ret a).
Proof. intros h. reflexivity. Qed.

Lemma extends_throw {A} (e : string) : extends (@throw A e).
Proof. intros h. reflexivity. Qed.

Lemma extends_getProp (v : val) (k : string) : extends (getProp v k).
Proof. intros h. destruct v; reflexivity. Qed.

Lemma extends_optGetProp (v : val) (k : string) : extends (optGetProp v k).
Proof. intros h. destruct v; reflexivity. Qed.

Lemma extends_objectLiteral (ms : list member) : extends (objectLiteral ms).
Proof. intros h. apply prefix_app_r. reflexivity. Qed.

Lemma extends_bind {A B} (m : JS A) (f : A → JS B) :
  extends m → (∀ a, extends (f a)) → extends (bind m f).
Proof.
  intros Hm Hf h. unfold bind. specialize (Hm h).
  destruct (m h) as [[a | e] h1]; cbn [snd] in *; [| exact Hm].
  etransitivity; [exact Hm | apply Hf].
Qed.

Lemma returnsFresh_objectLiteral (ms : list member) : returnsFresh (objectLiteral ms).
Proof.
  intros h. split; [apply extends_objectLiteral |].
  cbn. exists (length h). rewrite length_app. cbn. split; [reflexivity | lia].
Qed.

Lemma returnsFresh_bind {A} (m : JS A) (f : A → JS val) :
  extends m → (∀ a, returnsFresh (f a)) → returnsFresh (bind m f).
Proof.
  intros Hm Hf h. unfold bind. specialize (Hm h).
  destruct (m h) as [[a | e] h1]; cbn [fst snd] in *; [| split; [exact Hm | exact I]].
  destruct (Hf a h1) as [Hp Hr]. split; [etransitivity; eassumption |].
  destruct (f a h1).1 as [v | e]; [| exact I].
  destruct Hr as (l & -> & Hl). exists l. split; [reflexivity |].
  apply prefix_length in Hm. lia.
Qed.

Ltac extends_step :=
  first
    [ apply extends_bind; [| intros ?]
    | apply extends_getProp
    | apply extends_optGetProp
    | apply extends_objectLiteral
    | apply extends_ret
    | apply extends_throw ].

Lemma extends_mergeGroup (base customSettings : val) (group : string) :
  extends (mergeGroup base customSettings group).
Proof. unfold mergeGroup. repeat extends_step. Qed.

Lemma extends_getConfig (presetName : option string) : extends (getConfig presetName).
Proof.
  unfold getConfig. extends_step; [extends_step |].
  destruct (toBoolean _); extends_step.
Qed.

Lemma returnsFresh_mergeWith (base customSettings : val) :
  returnsFresh (mergeWith base customSettings).
Proof.
  unfold mergeWith.
  repeat (apply returnsFresh_bind;
          [first [apply extends_mergeGroup | extends_step] | intros ?]).
  apply returnsFresh_objectLiteral.
Qed.

Lemma returnsFresh_mergeConfig (basePreset : option string) (customSettings : val) :
  returnsFresh (mergeConfig basePreset customSettings).
Proof.
  unfold mergeConfig.
  apply returnsFresh_bind; [destruct customSettings; extends_step | intros ?].
  apply returnsFresh_bind; [apply extends_getConfig | intros ?].
  apply returnsFresh_mergeWith.
Qed.

(** ** Snapshots *)

Lemma snapshot_app (d : nat) (h e : heap) (v : val) :
  closed h → validb h v = true → snapshot d (h ++ e) v = snapshot d h v.
Proof.
  intros Hc. revert v. induction d as [| d IH]; intros v Hv;
    destruct v; try reflexivity.
  cbn [snapshot]. cbn [validb] in Hv. apply bool_decide_eq_true in Hv.
  rewrite lookup_app_l by exact Hv.
  destruct (h !! l) as [o |] eqn:El; cbn [default from_option id]; [| reflexivity].
  f_equal. apply map_fmap_ext. intros k x Hk. apply IH. exact (Hc l o k x El Hk).
Qed.

Lemma snapshot_cells (d : nat) (h1 h2 : heap) (a b : loc) (oa ob : obj) :
  h1 !! a = Some oa → h2 !! b = Some ob →
  (∀ k, snapshot d h1 <$> oa !! k = snapshot d h2 <$> ob !! k) →
  snapshot (S d) h1 (VRef a) = snapshot (S d) h2 (VRef b).
Proof.
  intros Ha Hb H. cbn [snapshot]. rewrite Ha, Hb. cbn [default from_option id]. f_equal.
  apply map_eq. intros k. rewrite !lookup_fmap. apply H.
Qed.

Lemma snapshot_same_cell (d : nat) (h : heap) (a b : loc) (o : obj) :
  h !! a = Some o → h !! b = Some o →
  snapshot d h (VRef a) = snapshot d h (VRef b).
Proof.
  intros Ha Hb. destruct d; [reflexivity |]. cbn [snapshot]. now rewrite Ha, Hb.
Qed.

Lemma snapshot_copy (d : nat) (h e : heap) (a b : loc) (o : obj) :
  closed h → (h ++ e) !! a = Some o → h !! b = Some o →
  snapshot d (h ++ e) (VRef a) = snapshot d h (VRef b).
Proof.
  intros Hc Ha Hb. destruct d; [reflexivity |].
  apply (snapshot_cells _ _ _ _ _ _ _ Ha Hb). intros k.
  destruct (o !! k) as [x |] eqn:Ek; [| reflexivity]. cbn. f_equal.
  apply snapshot_app; [exact Hc | exact (Hc b o k x Hb Ek)].
Qed.

Lemma presets_snapshot (d : nat) (later : heap) :
  snapshot d (configHeap ++ later) presets = snapshot d configHeap presets.
Proof. apply snapshot_app; [exact configHeap_closed | exact presets_valid]. Qed.

(** C10: [mergeConfig] never writes to an existing object: for every preset
    name, override and heap holding the module's objects, the heap after
    the call is the heap before it followed by the cells the call
    allocated, so the preset table and all its nested groups read exactly
    as before, whether the call returns or throws; and what it returns is
    a reference to a cell allocated by the call. *)
Theorem mergeConfig_preserves_presets
    (basePreset : option string) (customSettings : val) (later : heap) :
  let h := configHeap ++ later in
  let h' := (mergeConfig basePreset customSettings h).2 in
  h `prefix_of` h' ∧
  (∀ d, snapshot d h' presets = snapshot d configHeap presets) ∧
  match (mergeConfig basePreset customSettings h).1 with
  | Return r => ∃ l, r = VRef l ∧ (length h ≤ l < length h')%nat
  | Throw _ => True
  end.
Proof.
  intros h h'.
  destruct (returnsFresh_mergeConfig basePreset customSettings h) as [Hp Hr].
  split; [exact Hp | split; [| exact Hr]].
  intros d. destruct Hp as [e He]. subst h'. rewrite He. subst h.
  rewrite <- app_assoc. apply presets_snapshot.
Qed.

Lemma isRef_inv (v : val) : isRef v = true → ∃ l, v = VRef l.
Proof. destruct v; try discriminate. intros _. now exists l. Qed.

(** Every group of every preset is an object. *)
Lemma preset_group_ref (b : val) (g : string) :
  b ∈ presetValues → g ∈ configGroups →
  ∃ l, lookupProperty configHeap b g = VRef l.
Proof.
  rewrite presetValues_eq. unfold configGroups. intros Hb Hg. apply isRef_inv.
  cases_of Hb; cases_of Hg; by_evaluation.
Qed.

Lemma group_not_inherited (g : string) :
  g ∈ configGroups → objectPrototype g = VUndefined.
Proof. unfold configGroups. intros Hg. cases_of Hg; by_evaluation. Qed.

Lemma empty_union (m : obj) : (∅ : obj) ∪ m = m.
Proof. apply (left_id_L ∅ (∪)). Qed.

(** ** Merging an empty override copies the preset *)

Section EmptyOverride.
Variables (later : heap) (name : option string) (lo : loc).
Let h := configHeap ++ later.
Hypothesis Hclosed : closed h.
Hypothesis Hname : baseOf name ∈ presetValues.
Hypothesis Hempty : h !! lo = Some ∅.

Let base := baseOf name.
Let n := length h.
Let h' := h ++ mergedObjects h base (VRef lo) n.

Lemma empty_lookup (g : string) :
  g ∈ configGroups → lookupProperty h (VRef lo) g = VUndefined.
Proof.
  intros Hg. cbn [lookupProperty]. rewrite Hempty. cbn [mbind option_bind].
  rewrite lookup_empty. now apply group_not_inherited.
Qed.

Lemma base_valid : validb h base = true.
Proof. apply validb_app. now destruct (presetValues_facts _ Hname). Qed.

Lemma base_group (g : string) :
  g ∈ configGroups →
  ∃ lb ob lg og,
    base = VRef lb ∧ h !! lb = Some ob ∧ ob !! g = Some (VRef lg) ∧
    h !! lg = Some og ∧ lookupProperty h base g = VRef lg ∧
    mergedGroup h base (VRef lo) g = og.
Proof.
  intros Hg. destruct (preset_group_ref _ _ Hname Hg) as [lg Hlg].
  destruct (presetValues_facts _ Hname) as [Hv _ _ _].
  assert (lookupProperty h base g = VRef lg) as Hlg'
    by (subst h base; now rewrite lookupProperty_app).
  destruct (lookupProperty_ref _ _ _ _ Hlg') as (lb & ob & Eb & Hlb & Hob).
  assert (validb h (VRef lg) = true) as Hvg by exact (Hclosed _ _ _ _ Hlb Hob).
  cbn [validb] in Hvg. apply bool_decide_eq_true in Hvg.
  destruct (lookup_lt_is_Some_2 h lg Hvg) as [og Hog].
  exists lb, ob, lg, og. repeat split; try assumption.
  unfold mergedGroup. rewrite Hlg', (empty_lookup _ Hg).
  cbn [ownProperties]. rewrite Hog. cbn [default from_option id]. apply (left_id_L ∅ (∪)).
Qed.

(** A merged one-level group has the fields of the preset's group. *)
Lemma group_snapshot (g : string) (i : nat) (lb : loc) (ob : obj) (d : nat) :
  g ∈ configGroups →
  base = VRef lb → h !! lb = Some ob →
  mergedObjects h base (VRef lo) n !! i
    = Some (mergedGroup h base (VRef lo) g) →
  mergedConfig h base (VRef lo) n !! g = Some (VRef (n + i)) →
  snapshot d h' <$> mergedConfig h base (VRef lo) n !! g
  = snapshot d h <$> ob !! g.
Proof.
  intros Hg Eb Hlb Hi Hm.
  destruct (base_group g Hg) as (lb' & ob' & lg & og & Eb' & Hlb' & Hob & Hog & _ & Hmg).
  rewrite Eb in Eb'. injection Eb' as <-. rewrite Hlb in Hlb'. injection Hlb' as <-.
  rewrite Hm, Hob. cbn [fmap option_fmap option_map]. f_equal.
  apply (snapshot_copy d h _ _ _ og Hclosed); [| exact Hog].
  rewrite <- Hmg. unfold h', n. now apply result_cell.
Qed.

Lemma tight_snapshot (d : nat) :
  snapshot d h' (VRef (n + 4)) = snapshot d h (VRef 4).
Proof.
  assert (validb h (VRef 4) = true) as Hv4 by (apply validb_app; by_evaluation).
  pose proof Hv4 as Hlt. cbn [validb] in Hlt. apply bool_decide_eq_true in Hlt.
  destruct (lookup_lt_is_Some_2 h 4 Hlt) as [ot Hot].
  apply (snapshot_copy d h _ _ _ ot Hclosed); [| exact Hot].
  unfold h', n. rewrite result_tight. f_equal. unfold mergedTight.
  rewrite empty_lookup by by_decision. cbn [optLookupProperty ownProperties].
  rewrite (left_id_L ∅ (∪)).
  etransitivity; [apply (merged_base_tight later name Hname) |].
  rewrite <- (ownProperties_app configHeap later (VRef 4)) by by_evaluation.
  cbn [ownProperties]. fold h. now rewrite Hot.
Qed.

Lemma cropping_snapshot (lb : loc) (ob : obj) (d : nat) :
  base = VRef lb → h !! lb = Some ob →
  snapshot d h' <$> mergedConfig h base (VRef lo) n !! "cropping"%string
  = snapshot d h <$> ob !! "cropping"%string.
Proof.
  intros Eb Hlb.
  assert ("cropping"%string ∈ configGroups) as Hg by by_decision.
  destruct (base_group _ Hg) as (lb' & ob' & lg & og & Eb' & Hlb' & Hob & Hog & Hlg & Hmg).
  rewrite Eb in Eb'. injection Eb' as <-. rewrite Hlb in Hlb'. injection Hlb' as <-.
  unfold n. rewrite mergedConfig_cropping, Hob. cbn [fmap option_fmap option_map]. f_equal.
  destruct d; [reflexivity |].
  assert (h' !! (n + 5)%nat
          = Some (<["tightCropDetection"%string := VRef (n + 4)]> og)) as Hcell.
  { unfold h', n. rewrite result_cropping. unfold mergedCropping.
    unfold mergedGroup in Hmg. now rewrite Hmg. }
  apply (snapshot_cells _ _ _ _ _ _ _ Hcell Hog). intros k.
  assert (og !! "tightCropDetection"%string = Some (VRef 4)) as Ht.
  { assert (lookupProperty h (VRef lg) "tightCropDetection" = VRef 4) as E.
    { rewrite <- Hlg. destruct (presetValues_facts _ Hname) as [Hv _ Hc _].
      subst h base. rewrite (lookupProperty_app _ _ _ _ Hv), Hc.
      rewrite lookupProperty_app by by_evaluation. exact cropping_tight. }
    apply lookupProperty_ref in E as (l & o & El & Hl & Ho).
    injection El as <-. rewrite Hog in Hl. now injection Hl as <-. }
  destruct (decide (k = "tightCropDetection"%string)) as [-> | Hk].
  - rewrite lookup_insert_eq, Ht. cbn [fmap option_fmap option_map]. f_equal. apply tight_snapshot.
  - rewrite lookup_insert_ne by congruence.
    destruct (og !! k) as [x |] eqn:Ek; [| reflexivity]. cbn [fmap option_fmap option_map]. f_equal.
    unfold h'. apply snapshot_app; [exact Hclosed | exact (Hclosed _ _ _ _ Hog Ek)].
Qed.

Lemma empty_override_snapshot (d : nat) :
  snapshot d h' (VRef (n + 7)) = snapshot d configHeap base.
Proof.
  destruct (presetValues_facts _ Hname) as [Hv _ _ Hd].
  transitivity (snapshot d h base);
    [| subst h; apply snapshot_app; [exact configHeap_closed | exact Hv]].
  assert ("output"%string ∈ configGroups) as Hg by by_decision.
  destruct (base_group _ Hg) as (lb & ob & _ & _ & Eb & Hlb & _).
  rewrite Eb. destruct d; [reflexivity |].
  apply (snapshot_cells _ _ _ _ _ _ _ (result_config _ _ _ _) Hlb).
  intros k. destruct (decide (k ∈ configGroups)) as [Hk | Hk].
  - destruct (mergedConfig_groups h h base (VRef lo)) as (Hb0 & Hb1 & Hb2 & Hb3 & Hb6).
    unfold configGroups in Hk. cases_of Hk.
    + apply (group_snapshot _ 0 lb ob d); first [assumption | reflexivity | by_decision].
    + apply (group_snapshot _ 1 lb ob d); first [assumption | reflexivity | by_decision].
    + apply (group_snapshot _ 2 lb ob d); first [assumption | reflexivity | by_decision].
    + apply (group_snapshot _ 3 lb ob d); first [assumption | reflexivity | by_decision].
    + apply (cropping_snapshot lb ob d); assumption.
    + apply (group_snapshot _ 6 lb ob d); first [assumption | reflexivity | by_decision].
  - rewrite mergedConfig_other by exact Hk.
    cbn [ownProperties]. rewrite Hempty. cbn [default from_option id].
    rewrite empty_union. rewrite Eb. cbn [ownProperties]. rewrite Hlb.
    cbn [default from_option id].
    assert (ob !! k = None) as ->; [| reflexivity].
    apply not_elem_of_dom. 
    assert (dom ob = list_to_set configGroups) as ->.
    { rewrite <- Hd. subst base. rewrite Eb.
      rewrite <- (ownProperties_app configHeap later (VRef lb)) by (rewrite <- Eb; exact Hv).
      cbn [ownProperties]. fold h. now rewrite Hlb. }
    now rewrite elem_of_list_to_set.
Qed.
End EmptyOverride.

(** ** Merging twice *)

Section Twice.
Variables (h0 h : heap) (base customSettings : val).
Let n := length h.
Let h1 := h ++ mergedObjects h0 base customSettings n.
Let m := length h1.
Let h2 := h1 ++ mergedObjects h0 base customSettings m.

Lemma first_cell (i : nat) (o : obj) :
  mergedObjects h0 base customSettings n !! i = Some o →
  h2 !! (n + i)%nat = Some o.
Proof.
  intros Hi. unfold h2. apply lookup_app_l_Some. unfold h1, n.
  now apply result_cell.
Qed.

Lemma second_cell (i : nat) (o : obj) :
  mergedObjects h0 base customSettings m !! i = Some o →
  h2 !! (m + i)%nat = Some o.
Proof. intros Hi. unfold h2, m. now apply result_cell. Qed.

Lemma twice_group (d i : nat) (o : obj) :
  mergedObjects h0 base customSettings n !! i = Some o →
  mergedObjects h0 base customSettings m !! i = Some o →
  snapshot d h2 (VRef (n + i)) = snapshot d h2 (VRef (m + i)).
Proof.
  intros H1 H2. apply (snapshot_same_cell d h2 _ _ o);
    [now apply first_cell | now apply second_cell].
Qed.

Lemma twice_cropping (d : nat) :
  snapshot d h2 (VRef (n + 5)) = snapshot d h2 (VRef (m + 5)).
Proof.
  destruct d; [reflexivity |].
  apply (snapshot_cells d h2 h2 _ _
           (mergedCropping h0 base customSettings (VRef (n + 4)))
           (mergedCropping h0 base customSettings (VRef (m + 4))));
    [apply first_cell; reflexivity | apply second_cell; reflexivity |].
  intros k. unfold mergedCropping.
  destruct (decide (k = "tightCropDetection"%string)) as [-> | Hk].
  - rewrite !lookup_insert_eq. cbn [fmap option_fmap option_map]. f_equal.
    apply (twice_group d 4 (mergedTight h0 base customSettings)); reflexivity.
  - rewrite !lookup_insert_ne by congruence. reflexivity.
Qed.

Lemma twice_config (d : nat) :
  snapshot d h2 (VRef (n + 7)) = snapshot d h2 (VRef (m + 7)).
Proof.
  destruct d; [reflexivity |].
  apply (snapshot_cells d h2 h2 _ _
           (mergedConfig h0 base customSettings n)
           (mergedConfig h0 base customSettings m));
    [apply first_cell; reflexivity | apply second_cell; reflexivity |].
  intros k. destruct (decide (k ∈ configGroups)) as [Hk | Hk].
  - destruct (mergedConfig_groups h0 h base customSettings)
      as (Ha0 & Ha1 & Ha2 & Ha3 & Ha6).
    destruct (mergedConfig_groups h0 h1 base customSettings)
      as (Hb0 & Hb1 & Hb2 & Hb3 & Hb6).
    fold n in Ha0, Ha1, Ha2, Ha3, Ha6. fold m in Hb0, Hb1, Hb2, Hb3, Hb6.
    unfold configGroups in Hk. cases_of Hk.
    + rewrite Ha0, Hb0. cbn [fmap option_fmap option_map]. f_equal.
      apply (twice_group d 0 (mergedGroup h0 base customSettings "brightness"));
        reflexivity.
    + rewrite Ha1, Hb1. cbn [fmap option_fmap option_map]. f_equal.
      apply (twice_group d 1 (mergedGroup h0 base customSettings "color"));
        reflexivity.
    + rewrite Ha2, Hb2. cbn [fmap option_fmap option_map]. f_equal.
      apply (twice_group d 2 (mergedGroup h0 base customSettings "contrast"));
        reflexivity.
    + rewrite Ha3, Hb3. cbn [fmap option_fmap option_map]. f_equal.
      apply (twice_group d 3 (mergedGroup h0 base customSettings "sharpening"));
        reflexivity.
    + unfold n, m. rewrite !mergedConfig_cropping.
      cbn [fmap option_fmap option_map]. f_equal. apply twice_cropping.
    + rewrite Ha6, Hb6. cbn [fmap option_fmap option_map]. f_equal.
      apply (twice_group d 6 (mergedGroup h0 base customSettings "output"));
        reflexivity.
  - unfold n, m. rewrite !mergedConfig_other by exact Hk. reflexivity.
Qed.
End Twice.

(** ** Deep merge of [tightCropDetection] *)

(** C3: merging [{cropping: {tightCropDetection: {looseCropSize: 0.98}}}]
    onto the default preset leaves [faceToImageRatioThreshold] at 0.03 and
    [faceEdgeDistanceThreshold] at 0.20, the default preset's values, and
    sets [looseCropSize] to 0.98; and in general, for every preset and
    every override, each field of [cropping.tightCropDetection] that the
    override's [cropping.tightCropDetection] does not have keeps the
    preset's value, while each field it has takes the override's. *)
Theorem tightCropDetection_deep_merge :
  (let out := mergeConfig (Some "default"%string) looseCropOverride
                (configHeap ++ looseCropCells) in
   let tight k := readPath out.2 (VRef 35) ["cropping"; "tightCropDetection"; k]%string in
   out.1 = Return (VRef 35) ∧
   tight "faceToImageRatioThreshold"%string = Some (N 0.03) ∧
   tight "faceEdgeDistanceThreshold"%string = Some (N 0.20) ∧
   tight "looseCropSize"%string = Some (N 0.98) ∧
   readPath configHeap processingConfig
     ["cropping"; "tightCropDetection"; "faceToImageRatioThreshold"]%string
     = Some (N 0.03) ∧
   readPath configHeap processingConfig
     ["cropping"; "tightCropDetection"; "faceEdgeDistanceThreshold"]%string
     = Some (N 0.20)) ∧
  (∀ (later : heap) (basePreset : option string) (customSettings : val),
     let h := configHeap ++ later in
     wellFormed h = true →
     validb h customSettings = true →
     nonNullish customSettings = true →
     baseOf basePreset ∈ presetValues →
     ∃ r h',
       mergeConfig basePreset customSettings h = (Return r, h') ∧
       ∀ k,
         let custom := ownProperties h (overrideTight h customSettings) !! k in
         let merged := readPath h' r ["cropping"; "tightCropDetection"; k]%string in
         (custom = None →
          merged = readPath configHeap (baseOf basePreset)
                     ["cropping"; "tightCropDetection"; k]%string) ∧
         (∀ x, custom = Some x → merged = Some x)).
Proof.
  split.
  - cbv zeta. repeat split; by_evaluation.
  - intros later basePreset customSettings h Hwf%wellFormed_closed Hv Hnn Hname.
    eexists _, _. split; [now apply mergeConfig_returns |].
    intros k. cbv zeta. split.
    + now apply merged_tight_untouched.
    + intros x. now apply merged_tight_overridden.
Qed.

Lemma tightCropDetection_deep_merge_witness :
  ∃ r h',
    mergeConfig (Some "default"%string) looseCropOverride
      (configHeap ++ looseCropCells) = (Return r, h') ∧
    readPath h' r ["cropping"; "tightCropDetection"; "faceToImageRatioThreshold"]%string
    = readPath configHeap (baseOf (Some "default"%string))
        ["cropping"; "tightCropDetection"; "faceToImageRatioThreshold"]%string ∧
    readPath h' r ["cropping"; "tightCropDetection"; "looseCropSize"]%string
    = Some (N 0.98).
Proof.
  destruct (proj2 tightCropDetection_deep_merge looseCropCells
              (Some "default"%string) looseCropOverride)
    as (r & h' & E & H); [by_evaluation | by_evaluation | by_evaluation | by_decision |].
  exists r, h'. split; [exact E | split].
  - apply (proj1 (H "faceToImageRatioThreshold"%string)). by_evaluation.
  - apply (proj2 (H "looseCropSize"%string)). by_evaluation.
Defined.

(** ** Unknown top-level fields *)




(** ** Partial overrides *)

(** C9: for every preset and every override object, [mergeConfig] returns
    normally whichever groups the override leaves out, and when the
    override has no [cropping] group the result's
    [cropping.tightCropDetection] has exactly the fields and values of the
    preset's. *)
Theorem mergeConfig_partial_override
    (later : heap) (basePreset : option string) (customSettings : val) :
  let h := configHeap ++ later in
  wellFormed h = true →
  validb h customSettings = true →
  nonNullish customSettings = true →
  baseOf basePreset ∈ presetValues →
  ∃ r h',
    mergeConfig basePreset customSettings h = (Return r, h') ∧
    (readPath h customSettings ["cropping"%string] = None →
     ∀ k,
       readPath h' r ["cropping"; "tightCropDetection"; k]%string
       = readPath configHeap (baseOf basePreset)
           ["cropping"; "tightCropDetection"; k]%string).
Proof.
  intros h Hwf%wellFormed_closed Hv Hnn Hname.
  eexists _, _. split; [now apply mergeConfig_returns |].
  intros Habsent k. apply merged_tight_untouched; try assumption.
  assert ("cropping"%string ∉ objectPrototypeNames) as Hc by by_decision.
  fold h. rewrite (absent_group h customSettings _ Hc Habsent).
  apply lookup_empty.
Qed.

Lemma mergeConfig_partial_override_witness :
  ∃ r h',
    mergeConfig (Some "brighten"%string) emptyOverride (configHeap ++ emptyCells)
    = (Return r, h') ∧
    ∀ k,
      readPath h' r ["cropping"; "tightCropDetection"; k]%string
      = readPath configHeap (baseOf (Some "brighten"%string))
          ["cropping"; "tightCropDetection"; k]%string.
Proof.
  destruct (mergeConfig_partial_override emptyCells (Some "brighten"%string)
              emptyOverride)
    as (r & h' & E & H); [by_evaluation | by_evaluation | by_evaluation | by_decision |].
  exists r, h'. split; [exact E |]. apply H. by_evaluation.
Defined.

(** ** Purity *)

Lemma closed_alloc_empty (h : heap) : closed h → closed (h ++ [∅]).
Proof.
  intros Hc. apply closed_alloc; [exact Hc |].
  intros k v Hk. rewrite lookup_empty in Hk. discriminate Hk.
Qed.

Section Pure.
Variables (later : heap) (basePreset : option string).
Let h := configHeap ++ later.
Hypothesis Hclosed : closed h.
Hypothesis Hname : baseOf basePreset ∈ presetValues.

Lemma mergeConfig_empty_object (lo : loc) :
  h !! lo = Some ∅ →
  ∃ r h',
    mergeConfig basePreset (VRef lo) h = (Return r, h') ∧
    ∀ d, snapshot d h' r = snapshot d configHeap (baseOf basePreset).
Proof.
  intros Hlo. eexists _, _. split.
  - apply mergeConfig_returns; try assumption; [| reflexivity].
    cbn [validb]. apply bool_decide_eq_true. now apply lookup_lt_Some in Hlo.
  - intros d. now apply empty_override_snapshot.
Qed.

Lemma mergeConfig_twice (customSettings : val) :
  validb h customSettings = true →
  nonNullish customSettings = true →
  ∃ r1 h1 r2 h2,
    mergeConfig basePreset customSettings h = (Return r1, h1) ∧
    mergeConfig basePreset customSettings h1 = (Return r2, h2) ∧
    ∀ d, snapshot d h2 r1 = snapshot d h2 r2.
Proof.
  intros Hv Hnn.
  eexists _, _, _, _. split; [now apply mergeConfig_returns |].
  split; [now apply mergeConfig_eval |].
  intros d. apply twice_config.
Qed.
End Pure.

(** C7: resolving with an empty override, given as the object [{}] or
    left out, returns a configuration equal field for field to the stored
    preset; resolving the same preset and override a second time, on the
    heap the first call left, returns a configuration equal field for
    field to the first result. *)
Theorem mergeConfig_idempotent (later : heap) (basePreset : option string) :
  let h := configHeap ++ later in
  wellFormed h = true →
  baseOf basePreset ∈ presetValues →
  (∀ customSettings,
     customSettings = VUndefined ∨
     (∃ lo, customSettings = VRef lo ∧ h !! lo = Some ∅) →
     ∃ r h',
       mergeConfig basePreset customSettings h = (Return r, h') ∧
       ∀ d, snapshot d h' r = snapshot d configHeap (baseOf basePreset)) ∧
  (∀ customSettings,
     validb h customSettings = true →
     nonNullish customSettings = true →
     ∃ r1 h1 r2 h2,
       mergeConfig basePreset customSettings h = (Return r1, h1) ∧
       mergeConfig basePreset customSettings h1 = (Return r2, h2) ∧
       ∀ d, snapshot d h2 r1 = snapshot d h2 r2).
Proof.
  intros h Hwf%wellFormed_closed Hname. split.
  - intros customSettings [-> | (lo & -> & Hlo)].
    + rewrite mergeConfig_absent. unfold h. rewrite <- app_assoc.
      apply mergeConfig_empty_object; [| exact Hname |].
      * rewrite app_assoc. now apply closed_alloc_empty.
      * rewrite app_assoc. apply list_lookup_middle. reflexivity.
    + now apply mergeConfig_empty_object.
  - intros customSettings Hv Hnn. now apply mergeConfig_twice.
Qed.

Lemma mergeConfig_idempotent_witness :
  ∃ r h',
    mergeConfig (Some "vibrant"%string) emptyOverride (configHeap ++ emptyCells)
    = (Return r, h') ∧
    ∀ d, snapshot d h' r = snapshot d configHeap (baseOf (Some "vibrant"%string)).
Proof.
  apply (proj1 (mergeConfig_idempotent emptyCells (Some "vibrant"%string)
                  ltac:(by_evaluation) ltac:(by_decision))).
  right. exists 25%nat. split; [reflexivity | by_evaluation].
Defined.

(** ** Preset names *)

(** C8 on the code, at the preset name ["constructor"]: the lookup
    [presets[presetName]] finds the function every object inherits under
    that name, which is truthy, so [|| presets.default] is not taken:
    [getConfig] returns that function instead of the default preset, and
    [mergeConfig] throws a [TypeError] when it reads
    [base.cropping.tightCropDetection], while the same call with
    ['default'] returns a configuration. *)
Theorem mergeConfig_inherited_name_throws :
  (getConfig (Some "constructor"%string) configHeap).1
  = Return (VBuiltin "constructor") ∧
  (getConfig (Some "default"%string) configHeap).1 = Return processingConfig ∧
  (mergeConfig (Some "constructor"%string) VUndefined configHeap).1
  = Throw "TypeError: Cannot read properties of undefined or null, reading tightCropDetection" ∧
  (mergeConfig (Some "default"%string) VUndefined configHeap).1
  = Return (VRef 33).
Proof. repeat split; by_evaluation. Qed.

Lemma getConfig_unknown_name (k : string) (later : heap) :
  k ∉ presetNames → k ∉ objectPrototypeNames →
  getConfig (Some k) (configHeap ++ later)
  = getConfig (Some "default"%string) (configHeap ++ later).
Proof.
  intros Hp Ho. rewrite !getConfig_eval, baseOf_default.
  now rewrite baseOf_unknown.
Qed.

(** A name that is neither published nor inherited from [Object.prototype]
    behaves as ['default'], and so does an absent name. *)
Lemma defaulted_heap (customSettings c : val) (later h1 : heap) :
  match customSettings with
  | VUndefined => objectLiteral []
  | _ => ret customSettings
  end (configHeap ++ later) = (Return c, h1) →
  ∃ later', h1 = configHeap ++ later'.
Proof.
  destruct customSettings; unfold ret, objectLiteral; intros E;
    apply (f_equal snd) in E; cbn [snd] in E; rewrite <- E.
  1: exists (later ++ [fold_left (define (configHeap ++ later)) [] ∅]);
     symmetry; apply app_assoc.
  all: exists later; reflexivity.
Qed.

(** X8: a preset name that is neither published nor inherited from
    [Object.prototype] behaves as ['default']: [mergeConfig] gives the same
    outcome and the same heap for both, whatever the override. *)
Lemma mergeConfig_unknown_name (k : string) (customSettings : val) (later : heap) :
  k ∉ presetNames → k ∉ objectPrototypeNames →
  mergeConfig (Some k) customSettings (configHeap ++ later)
  = mergeConfig (Some "default"%string) customSettings (configHeap ++ later).
Proof.
  intros Hp Ho. unfold mergeConfig. unfold bind at 1 3.
  destruct (match customSettings with
            | VUndefined => objectLiteral []
            | _ => ret customSettings
            end (configHeap ++ later)) as [[c | e] h1] eqn:E; [| reflexivity].
  apply defaulted_heap in E as [later' ->].
  unfold bind. now rewrite (getConfig_unknown_name k later' Hp Ho).
Qed.

Lemma mergeConfig_absent_name (customSettings : val) (h : heap) :
  mergeConfig None customSettings h = mergeConfig (Some "default"%string) customSettings h.
Proof. unfold mergeConfig, getConfig. reflexivity. Qed.

Lemma mergeGroup_returns (base customSettings : val) (group : string) (h : heap) :
  nonNullish base = true → nonNullish customSettings = true →
  ∃ v h', mergeGroup base customSettings group h = (Return v, h').
Proof.
  intros Hb Hc. unfold mergeGroup.
  rewrite (bind_Return _ _ _ _ _ (getProp_nonNullish _ _ _ Hb)).
  rewrite (bind_Return _ _ _ _ _ (getProp_nonNullish _ _ _ Hc)).
  eexists _, _. reflexivity.
Qed.

Lemma mergeGroup_null (base : val) (group : string) (h : heap) :
  nonNullish base = true →
  mergeGroup base VNull group h
  = (Throw ("TypeError: Cannot read properties of undefined or null, reading " +:+ group), h).
Proof.
  intros Hb. unfold mergeGroup.
  rewrite (bind_Return _ _ _ _ _ (getProp_nonNullish _ _ _ Hb)). reflexivity.
Qed.

(** With an inherited name [mergeConfig] throws, whatever the override:
    at [customSettings.brightness] when the override is [null], at
    [base.cropping.tightCropDetection] otherwise. *)
Lemma mergeWith_builtin (k : string) (c : val) (h : heap) :
  nonNullish c = true →
  (mergeWith (VBuiltin k) c h).1
  = Throw "TypeError: Cannot read properties of undefined or null, reading tightCropDetection".
Proof.
  intros Hc. unfold mergeWith.
  destruct (mergeGroup_returns (VBuiltin k) c "brightness" h eq_refl Hc)
    as (v1 & h1 & E1).
  rewrite (bind_Return _ _ _ _ _ E1).
  destruct (mergeGroup_returns (VBuiltin k) c "color" h1 eq_refl Hc)
    as (v2 & h2 & E2).
  rewrite (bind_Return _ _ _ _ _ E2).
  destruct (mergeGroup_returns (VBuiltin k) c "contrast" h2 eq_refl Hc)
    as (v3 & h3 & E3).
  rewrite (bind_Return _ _ _ _ _ E3).
  destruct (mergeGroup_returns (VBuiltin k) c "sharpening" h3 eq_refl Hc)
    as (v4 & h4 & E4).
  rewrite (bind_Return _ _ _ _ _ E4).
  rewrite (bind_Return _ _ _ _ _ (getProp_nonNullish (VBuiltin k) _ _ eq_refl)).
  rewrite (bind_Return _ _ _ _ _ (getProp_nonNullish c _ _ Hc)).
  reflexivity.
Qed.

Lemma mergeConfig_inherited_object (k : string) (c : val) (later : heap) :
  k ∈ objectPrototypeNames → nonNullish c = true →
  (mergeConfig (Some k) c (configHeap ++ later)).1
  = Throw "TypeError: Cannot read properties of undefined or null, reading tightCropDetection".
Proof.
  intros Hk Hc. unfold mergeConfig.
  assert (match c with
          | VUndefined => objectLiteral []
          | _ => ret c
          end = ret c) as -> by (destruct c; try reflexivity; discriminate Hc).
  unfold bind at 1, ret at 1.
  rewrite (bind_Return _ _ _ _ _ (getConfig_eval _ _)), (baseOf_inherited _ Hk).
  apply mergeWith_builtin. exact Hc.
Qed.

(** X9: with a name every object inherits from [Object.prototype],
    [mergeConfig] throws a [TypeError] whatever the override: at
    [customSettings.brightness] when the override is [null], at
    [base.cropping.tightCropDetection] otherwise. *)
Lemma mergeConfig_inherited_name (k : string) (customSettings : val) (later : heap) :
  k ∈ objectPrototypeNames →
  (mergeConfig (Some k) customSettings (configHeap ++ later)).1
  = Throw
      match customSettings with
      | VNull => "TypeError: Cannot read properties of undefined or null, reading brightness"
      | _ => "TypeError: Cannot read properties of undefined or null, reading tightCropDetection"
      end.
Proof.
  intros Hk. destruct customSettings.
  3-7: (apply mergeConfig_inherited_object; [exact Hk | reflexivity]).
  - rewrite mergeConfig_absent, <- app_assoc.
    apply mergeConfig_inherited_object; [exact Hk | reflexivity].
  - unfold mergeConfig. unfold bind at 1, ret at 1.
    rewrite (bind_Return _ _ _ _ _ (getConfig_eval _ _)), (baseOf_inherited _ Hk).
    unfold mergeWith.
    rewrite (bind_Throw _ _ _ _ _ (mergeGroup_null (VBuiltin k) "brightness" _ eq_refl)).
    reflexivity.
Qed.


(** * Further properties *)

Local Open Scope string_scope.
Local Open Scope list_scope.
Local Open Scope Z_scope.

(** ** Crop arithmetic and tiers *)

Lemma squareSize_cropSize m fc c :
  squareSize m fc c = (inject_Z (Z.min (width m) (height m)) * cropSize fc c)%Q.
Proof. destruct fc; reflexivity. Qed.

Lemma side_range (n : Z) (size : Q) :
  0 ≤ n → (0 <= size)%Q → (size <= 1)%Q →
  0 ≤ Qfloor (inject_Z n * size) ≤ n.
Proof.
  intros Hn H0 H1.
  assert (0 <= inject_Z n)%Q as Hn'
    by (change 0%Q with (inject_Z 0); rewrite <- Zle_Qle; exact Hn).
  split.
  - change 0 with (Qfloor (inject_Z 0)). apply Qfloor_resp_le.
    change (inject_Z 0) with 0%Q. nra.
  - rewrite <- (Qfloor_Z n) at 2. apply Qfloor_resp_le. nra.
Qed.

Lemma side_bounds (m : ImageMetadata) (fc : option (Q * Q)) (c : CroppingConfig) :
  0 < width m → 0 < height m →
  (0 <= cropSize fc c)%Q → (cropSize fc c <= 1)%Q →
  0 ≤ Qfloor (squareSize m fc c) ≤ Z.min (width m) (height m).
Proof.
  intros Hw Hh H0 H1. rewrite squareSize_cropSize.
  apply side_range; [| assumption ..].
  apply Z.min_glb; apply Z.lt_le_incl; assumption.
Qed.

Lemma half_floor (n : Z) : Qfloor (inject_Z n / 2) = n `div` 2.
Proof. change 2%Q with (inject_Z 2). symmetry. apply Zdiv_Qdiv. Qed.




Lemma cropRegion_placeCrop (m : ImageMetadata) (fc : option (Q * Q)) (c : CroppingConfig) :
  cropRegion m fc c
  = placeCrop m fc c (Qfloor (squareSize m fc c)) (Qfloor (squareSize m fc c)).
Proof. reflexivity. Qed.

Lemma placeCrop_shape (m : ImageMetadata) (fc : option (Q * Q)) (c : CroppingConfig)
    (s : Z) :
  ∃ l0 t0,
    let l := Z.max 0 (Z.min l0 (width m - s)) in
    let t := Z.max 0 (Z.min t0 (height m - s)) in
    placeCrop m fc c s s =
      {| crop_left := l; crop_top := t;
         crop_width := Z.min s (width m - l);
         crop_height := Z.min s (height m - t) |}.
Proof.
  unfold placeCrop. destruct fc as [[fx fy] |].
  - eexists _, _. reflexivity.
  - destruct (Qltb _ _); eexists _, _; reflexivity.
Qed.

(** X2: for an image of positive width and height the clamping and the
    final size adjustment never shrink the crop: whatever integer side
    between 0 and the shorter side of the image the flooring gives, the
    rectangle is a square of exactly that side; and for a size fraction
    between 0 and 1 the rectangle [cropRegion] returns has equal width and
    height, between 0 and the shorter side of the image. *)
Theorem cropRegion_square (m : ImageMetadata) (fc : option (Q * Q)) (c : CroppingConfig) :
  0 < width m → 0 < height m →
  (∀ s, 0 ≤ s ≤ Z.min (width m) (height m) →
     crop_width (placeCrop m fc c s s) = s ∧
     crop_height (placeCrop m fc c s s) = s) ∧
  ((0 <= cropSize fc c)%Q → (cropSize fc c <= 1)%Q →
   crop_width (cropRegion m fc c) = crop_height (cropRegion m fc c) ∧
   0 ≤ crop_width (cropRegion m fc c) ≤ Z.min (width m) (height m)).
Proof.
  intros Hw Hh.
  assert (∀ s, 0 ≤ s ≤ Z.min (width m) (height m) →
            crop_width (placeCrop m fc c s s) = s ∧
            crop_height (placeCrop m fc c s s) = s) as Hsq.
  { intros s Hs. destruct (placeCrop_shape m fc c s) as (l0 & t0 & E).
    cbv zeta in E. rewrite E. cbn [crop_width crop_height]. lia. }
  split; [exact Hsq |]. intros H0 H1.
  pose proof (side_bounds m fc c Hw Hh H0 H1) as Hs.
  rewrite cropRegion_placeCrop.
  destruct (Hsq _ Hs) as [-> ->]. split; [reflexivity | exact Hs].
Qed.

Lemma cropRegion_square_witness :
  crop_width (placeCrop squareImage None defaultCropping 800 800) = 800 ∧
  crop_height (placeCrop squareImage None defaultCropping 800 800) = 800.
Proof.
  apply (proj1 (cropRegion_square squareImage None defaultCropping
                  ltac:(reflexivity) ltac:(reflexivity)) 800).
  vm_compute. split; congruence.
Defined.

(** X3: without a face the crop is centred horizontally: [left] is
    [(imageWidth - cropWidth) div 2], the clamping leaves it alone, and the
    margin on the right exceeds the margin on the left by at most one
    pixel. *)
Theorem fallback_centred (m : ImageMetadata) (c : CroppingConfig) :
  0 < width m → 0 < height m →
  (0 <= fallbackSize c)%Q → (fallbackSize c <= 1)%Q →
  let r := cropRegion m None c in
  let rightMargin := width m - (crop_left r + crop_width r) in
  crop_left r = (width m - crop_width r) `div` 2 ∧
  0 ≤ crop_left r ≤ rightMargin ∧ rightMargin ≤ crop_left r + 1.
Proof.
  intros Hw Hh H0 H1.
  pose proof (side_bounds m None c Hw Hh H0 H1) as Hs.
  unfold cropRegion.
  set (side := Qfloor (squareSize m None c)) in *.
  rewrite half_floor.
  set (d := (width m - side) `div` 2).
  assert (0 ≤ d ∧ 2 * d ≤ width m - side < 2 * d + 2) as Hd.
  { subst d. clearbody side. clear H0 H1.
    pose proof (Z.mul_div_le (width m - side) 2 eq_refl).
    pose proof (Z.mul_succ_div_gt (width m - side) 2 eq_refl).
    pose proof (Z.div_pos (width m - side) 2). lia. }
  assert (Z.max 0 (Z.min d (width m - side)) = d) as Hl
    by (clearbody d side; clear H0 H1; lia).
  assert (Z.min side (width m - d) = side) as Hc
    by (clearbody d side; clear H0 H1; lia).
  destruct (Qltb (landscapeThreshold c) (inject_Z (width m) / inject_Z (height m)));
    cbv zeta; cbn [crop_left crop_width]; rewrite Hl, Hc;
    (split; [reflexivity |]); clearbody d side; clear H0 H1; lia.
Qed.

Lemma fallback_centred_witness :
  let r := cropRegion squareImage None defaultCropping in
  let rightMargin := width squareImage - (crop_left r + crop_width r) in
  crop_left r = (width squareImage - crop_width r) `div` 2 ∧
  0 ≤ crop_left r ≤ rightMargin ∧ rightMargin ≤ crop_left r + 1.
Proof.
  apply (fallback_centred squareImage defaultCropping); vm_compute; congruence.
Defined.





(** X5: when [mediumThreshold] is not above [darkThreshold] the
    medium-dark tier is never taken: the adjustment does not depend on
    [mediumDarkImages]. *)
Theorem mediumDark_unreachable (b : BrightnessConfig) (x avg : Q) :
  (mediumThreshold b <= darkThreshold b)%Q →
  brightnessAdjustment avg (withMediumDarkImages x b) = brightnessAdjustment avg b.
Proof.
  intros H. unfold brightnessAdjustment, withMediumDarkImages. cbn.
  destruct (Qltb avg (darkThreshold b)) eqn:Ed; [reflexivity |].
  apply Qltb_ge in Ed.
  assert (Qltb avg (mediumThreshold b) = false) as -> by (apply Qltb_ge; lra).
  reflexivity.
Qed.

Lemma mediumDark_unreachable_witness :
  brightnessAdjustment 145 (withMediumDarkImages 2 crossedBrightness)
  = brightnessAdjustment 145 crossedBrightness.
Proof.
  apply (mediumDark_unreachable crossedBrightness 2 145). vm_compute; congruence.
Defined.


(** ** Preset lookup *)

Lemma baseOf_truthy (name : option string) : toBoolean (baseOf name) = true.
Proof.
  destruct name as [k |]; [| rewrite baseOf_absent; reflexivity].
  rewrite baseOf_lookup.
  destruct (toBoolean (lookupProperty configHeap presets k)) eqn:E;
    [exact E | reflexivity].
Qed.

Lemma truthy_nonNullish (v : val) : toBoolean v = true → nonNullish v = true.
Proof. destruct v; try reflexivity; discriminate. Qed.

Lemma baseOf_cases (name : option string) :
  baseOf name ∈ presetValues ∨
  ∃ k, name = Some k ∧ k ∈ objectPrototypeNames ∧ baseOf name = VBuiltin k.
Proof.
  destruct name as [k |].
  - destruct (decide (k ∈ objectPrototypeNames)) as [Hk | Hk].
    + right. exists k. repeat split; [exact Hk | now apply baseOf_inherited].
    + left. apply baseOf_preset. intros k' [= <-]. exact Hk.
  - left. apply baseOf_preset. intros k' [=].
Qed.


(** X10: the parameter default [{}] replaces [undefined] only: with the
    override [null], [mergeConfig] throws a [TypeError] at
    [customSettings.brightness], for every preset name, before it allocates
    anything. *)
Theorem mergeConfig_null_override (basePreset : option string) (later : heap) :
  mergeConfig basePreset VNull (configHeap ++ later)
  = (Throw "TypeError: Cannot read properties of undefined or null, reading brightness",
     configHeap ++ later).
Proof.
  unfold mergeConfig. unfold bind at 1, ret at 1.
  rewrite (bind_Return _ _ _ _ _ (getConfig_eval _ _)).
  unfold mergeWith.
  rewrite (bind_Throw _ _ _ _ _
             (mergeGroup_null (baseOf basePreset) "brightness" _
                (truthy_nonNullish _ (baseOf_truthy _)))).
  reflexivity.
Qed.

(** X7: the route [/api/presets/:name] answers 200 for every name: its 404
    branch is never taken, as [getConfig] returns nothing falsy. *)
Theorem presetRoute_never_404 (presetName : string) (later : heap) :
  presetRouteStatus presetName (configHeap ++ later)
  = (Return 200, configHeap ++ later).
Proof.
  unfold presetRouteStatus.
  rewrite (bind_Return _ _ _ _ _ (getConfig_eval _ _)).
  unfold ret. rewrite baseOf_truthy. reflexivity.
Qed.

Lemma mergeConfig_unknown_name_witness :
  mergeConfig (Some "sepia") VUndefined (configHeap ++ [])
  = mergeConfig (Some "default") VUndefined (configHeap ++ []).
Proof.
  apply (mergeConfig_unknown_name "sepia" VUndefined []); by_decision.
Defined.

Lemma mergeConfig_inherited_name_witness :
  (mergeConfig (Some "toString") VUndefined (configHeap ++ [])).1
  = Throw "TypeError: Cannot read properties of undefined or null, reading tightCropDetection".
Proof.
  apply (mergeConfig_inherited_name "toString" VUndefined []). by_decision.
Defined.

(** ** The merge policy *)

Lemma union_lookup (a b : obj) (k : string) :
  (a ∪ b) !! k = match a !! k with Some x => Some x | None => b !! k end.
Proof.
  destruct (a !! k) as [x |] eqn:E.
  - now apply lookup_union_Some_l.
  - now apply lookup_union_r.
Qed.

Lemma preset_group_path (b : val) (g k : string) :
  b ∈ presetValues → g ∈ configGroups →
  readPath configHeap b [g; k]
  = ownProperties configHeap (lookupProperty configHeap b g) !! k.
Proof.
  intros Hb Hg. destruct (preset_group_ref b g Hb Hg) as [l Hl]. rewrite Hl.
  apply lookupProperty_ref in Hl as (lb & ob & -> & Hlb & Hob).
  rewrite (readPath_step _ _ _ _ _ _ Hlb Hob).
  pose proof (configHeap_closed lb ob g (VRef l) Hlb Hob) as Hv.
  cbn [validb] in Hv. apply bool_decide_eq_true_1 in Hv.
  destruct (lookup_lt_is_Some_2 configHeap l Hv) as [og Hog].
  rewrite (readPath_last _ _ _ _ Hog). cbn [ownProperties]. rewrite Hog. reflexivity.
Qed.

Lemma flatGroups_configGroups (g : string) : g ∈ flatGroups → g ∈ configGroups.
Proof. unfold flatGroups. intros Hg. cases_of Hg; by_decision. Qed.

Section Groups.
Variables (h0 h : heap) (base customSettings : val).
Let n := length h.
Let h' := h ++ mergedObjects h0 base customSettings n.

Lemma result_group_path (g k : string) :
  g ∈ flatGroups →
  readPath h' (VRef (n + 7)) [g; k] = mergedGroup h0 base customSettings g !! k.
Proof.
  unfold flatGroups. intros Hg.
  destruct (mergedConfig_groups h0 h base customSettings) as (H1 & H2 & H3 & H4 & H5).
  fold n in H1, H2, H3, H4, H5.
  pose proof (result_config h0 h base customSettings) as Hc. fold n in Hc.
  subst h'. cases_of Hg.
  - rewrite (readPath_step _ _ _ _ _ _ Hc H1).
    apply readPath_last, result_cell. reflexivity.
  - rewrite (readPath_step _ _ _ _ _ _ Hc H2).
    apply readPath_last, result_cell. reflexivity.
  - rewrite (readPath_step _ _ _ _ _ _ Hc H3).
    apply readPath_last, result_cell. reflexivity.
  - rewrite (readPath_step _ _ _ _ _ _ Hc H4).
    apply readPath_last, result_cell. reflexivity.
  - rewrite (readPath_step _ _ _ _ _ _ Hc H5).
    apply readPath_last, result_cell. reflexivity.
Qed.

Lemma result_cropping_path (k : string) :
  readPath h' (VRef (n + 7)) ["cropping"%string; k]
  = mergedCropping h0 base customSettings (VRef (n + 4)) !! k.
Proof.
  subst h'.
  rewrite (readPath_step _ _ _ _ _ _ (result_config h0 h base customSettings)
             (mergedConfig_cropping h0 h base customSettings)).
  apply readPath_last, result_cropping.
Qed.
End Groups.

Lemma base_group_properties (later : heap) (b : val) (g : string) :
  b ∈ presetValues → g ∈ configGroups →
  ownProperties (configHeap ++ later) (lookupProperty (configHeap ++ later) b g)
  = ownProperties configHeap (lookupProperty configHeap b g).
Proof.
  intros Hb Hg. destruct (presetValues_facts _ Hb) as [Hv _ _ _].
  rewrite (lookupProperty_app _ _ _ _ Hv).
  apply ownProperties_app, lookupProperty_valid, configHeap_closed.
Qed.

Lemma merged_field (later : heap) (name : option string) (customSettings : val)
    (g k : string) :
  let h := configHeap ++ later in
  closed h →
  validb h customSettings = true →
  nonNullish customSettings = true →
  baseOf name ∈ presetValues →
  g ∈ configGroups →
  (g = "cropping"%string → k ≠ "tightCropDetection"%string) →
  readPath (h ++ mergedObjects h (baseOf name) customSettings (length h))
    (VRef (length h + 7)) [g; k]
  = match ownProperties h (lookupProperty h customSettings g) !! k with
    | Some x => Some x
    | None => readPath configHeap (baseOf name) [g; k]
    end.
Proof.
  intros h Hc Hv Hnn Hname Hg Hk.
  rewrite (preset_group_path _ _ _ Hname Hg).
  rewrite <- (base_group_properties later _ _ Hname Hg). fold h.
  rewrite <- union_lookup.
  destruct (decide (g = "cropping"%string)) as [-> | Hne].
  - rewrite result_cropping_path. unfold mergedCropping.
    apply lookup_insert_ne. intros E. now apply Hk.
  - apply result_group_path. unfold configGroups in Hg. unfold flatGroups.
    cases_of Hg;
      [by_decision | by_decision | by_decision | by_decision
      | now destruct Hne | by_decision].
Qed.

(** X11: the merge policy, field by field: in each of the six groups, a
    field that the override's group has takes the override's value, and
    every other field keeps the preset's; in [cropping] this holds for
    every field but [tightCropDetection], which is merged one level
    deeper. *)
Theorem mergeConfig_group_policy
    (later : heap) (basePreset : option string) (customSettings : val) (g k : string) :
  let h := configHeap ++ later in
  wellFormed h = true →
  validb h customSettings = true →
  nonNullish customSettings = true →
  baseOf basePreset ∈ presetValues →
  g ∈ configGroups →
  (g = "cropping"%string → k ≠ "tightCropDetection"%string) →
  ∃ r h',
    mergeConfig basePreset customSettings h = (Return r, h') ∧
    readPath h' r [g; k]
    = match ownProperties h (lookupProperty h customSettings g) !! k with
      | Some x => Some x
      | None => readPath configHeap (baseOf basePreset) [g; k]
      end.
Proof.
  intros h Hwf%wellFormed_closed Hv Hnn Hname Hg Hk.
  eexists _, _. split; [now apply mergeConfig_returns |].
  now apply merged_field.
Qed.

Lemma mergeConfig_group_policy_witness :
  ∃ r h',
    mergeConfig (Some "natural") looseCropOverride (configHeap ++ looseCropCells)
    = (Return r, h') ∧
    readPath h' r ["cropping"; "fallbackSize"]
    = match ownProperties (configHeap ++ looseCropCells)
              (lookupProperty (configHeap ++ looseCropCells) looseCropOverride
                 "cropping") !! "fallbackSize" with
      | Some x => Some x
      | None => readPath configHeap (baseOf (Some "natural")) ["cropping"; "fallbackSize"]
      end.
Proof.
  apply (mergeConfig_group_policy looseCropCells (Some "natural") looseCropOverride
           "cropping" "fallbackSize").
  - by_evaluation.
  - by_evaluation.
  - reflexivity.
  - by_decision.
  - by_decision.
  - intros _. discriminate.
Defined.


(** ** Well-formed heaps *)

Lemma validObject_app (h e : heap) (o : obj) :
  validObject h o → validObject (h ++ e) o.
Proof. intros Ho k x Hk. apply validb_app. exact (Ho k x Hk). Qed.

Lemma validObject_union (h : heap) (a b : obj) :
  validObject h a → validObject h b → validObject h (a ∪ b).
Proof.
  intros Ha Hb k x Hk. apply lookup_union_Some_raw in Hk as [Hk | [_ Hk]].
  - exact (Ha k x Hk).
  - exact (Hb k x Hk).
Qed.

Lemma validObject_insert (h : heap) (o : obj) (k : string) (v : val) :
  validb h v = true → validObject h o → validObject h (<[k := v]> o).
Proof.
  intros Hv Ho k' x Hk. apply lookup_insert_Some in Hk as [[_ <-] | [_ Hk]].
  - exact Hv.
  - exact (Ho k' x Hk).
Qed.

Lemma validObject_own (h : heap) (v : val) :
  closed h → validObject h (ownProperties h v).
Proof. intros Hc k x Hk. exact (ownProperties_valid h v k x Hc Hk). Qed.

Lemma validb_ref (h : heap) (l : loc) : (l < length h)%nat → validb h (VRef l) = true.
Proof. intros Hl. cbn [validb]. now apply bool_decide_eq_true_2. Qed.

Lemma closed_app (h e : heap) :
  closed h → Forall (validObject (h ++ e)) e → closed (h ++ e).
Proof.
  intros Hc He l o k v Hl Hk.
  apply lookup_app_Some in Hl as [Hl | [_ Hl]].
  - apply validb_app. exact (Hc l o k v Hl Hk).
  - rewrite Forall_forall in He.
    exact (He o (list_elem_of_lookup_2 _ _ _ Hl) k v Hk).
Qed.

Lemma closed_wellFormed (h : heap) : closed h → wellFormed h = true.
Proof.
  intros Hc. unfold wellFormed. apply forallb_forall. intros o Ho.
  apply forallb_forall. intros [k v] Hkv.
  apply list_elem_of_In, list_elem_of_lookup_1 in Ho as [l Hl].
  apply list_elem_of_In, elem_of_map_to_list in Hkv.
  exact (Hc l o k v Hl Hkv).
Qed.

Lemma mergedGroup_valid (h : heap) (base customSettings : val) (g : string) :
  closed h → validObject h (mergedGroup h base customSettings g).
Proof. intros Hc. apply validObject_union; now apply validObject_own. Qed.

Lemma mergedObjects_valid (h e : heap) (base customSettings : val) :
  closed h →
  let n := length (h ++ e) in
  Forall (validObject ((h ++ e) ++ mergedObjects h base customSettings n))
    (mergedObjects h base customSettings n).
Proof.
  intros Hc n.
  assert (∀ o, validObject h o →
            validObject ((h ++ e) ++ mergedObjects h base customSettings n) o) as Up.
  { intros o Ho. rewrite <- app_assoc. now apply validObject_app. }
  assert (∀ i, (i < 8)%nat →
            validb ((h ++ e) ++ mergedObjects h base customSettings n) (VRef (n + i))
            = true) as Ref.
  { intros i Hi. apply validb_ref. rewrite length_app. cbn [mergedObjects length].
    subst n. lia. }
  unfold mergedObjects at 2. repeat apply Forall_cons_2; [.. | apply Forall_nil_2].
  - apply Up, mergedGroup_valid, Hc.
  - apply Up, mergedGroup_valid, Hc.
  - apply Up, mergedGroup_valid, Hc.
  - apply Up, mergedGroup_valid, Hc.
  - apply Up, validObject_union; now apply validObject_own.
  - apply validObject_insert; [apply Ref; lia |].
    apply Up, validObject_union; now apply validObject_own.
  - apply Up, mergedGroup_valid, Hc.
  - unfold mergedConfig.
    apply validObject_insert; [apply Ref; lia |].
    apply validObject_insert; [apply Ref; lia |].
    apply validObject_insert; [apply Ref; lia |].
    apply validObject_insert; [apply Ref; lia |].
    apply validObject_insert; [apply Ref; lia |].
    apply validObject_insert;
      [replace (VRef n) with (VRef (n + 0)) by (now rewrite Nat.add_0_r); apply Ref; lia |].
    apply Up, validObject_union; now apply validObject_own.
Qed.

Lemma mergeWith_builtin_heap (h e : heap) (k : string) (c : val) :
  closed h → validb h c = true → nonNullish c = true →
  (mergeWith (VBuiltin k) c (h ++ e)).2
  = (h ++ e) ++ [mergedGroup h (VBuiltin k) c "brightness";
                 mergedGroup h (VBuiltin k) c "color";
                 mergedGroup h (VBuiltin k) c "contrast";
                 mergedGroup h (VBuiltin k) c "sharpening"].
Proof.
  intros Hc Hv Hnn.
  pose proof (mergeGroup_eval h (VBuiltin k) c Hc eq_refl Hv eq_refl Hnn) as G.
  unfold mergeWith.
  rewrite (bind_Return _ _ _ _ _ (G e "brightness"%string)), <- (app_assoc h).
  rewrite (bind_Return _ _ _ _ _ (G _ "color"%string)), <- (app_assoc h).
  rewrite (bind_Return _ _ _ _ _ (G _ "contrast"%string)), <- (app_assoc h).
  rewrite (bind_Return _ _ _ _ _ (G _ "sharpening"%string)), <- (app_assoc h).
  rewrite (bind_Return _ _ _ _ _ (getProp_nonNullish (VBuiltin k) _ _ eq_refl)).
  rewrite (bind_Return _ _ _ _ _ (getProp_nonNullish c _ _ Hnn)).
  cbn [lookupProperty]. 
  rewrite !app_assoc. rewrite <- !(app_assoc (h ++ e)). reflexivity.
Qed.

Lemma mergeConfig_closed_object (later : heap) (name : option string) (c : val) :
  closed (configHeap ++ later) →
  validb (configHeap ++ later) c = true → nonNullish c = true →
  closed (mergeConfig name c (configHeap ++ later)).2.
Proof.
  intros Hc Hv Hnn. destruct (baseOf_cases name) as [Hp | (k & -> & Hk & E)].
  - rewrite (mergeConfig_returns later name c Hc Hv Hnn Hp). cbn [snd].
    apply closed_app; [exact Hc |].
    pose proof (mergedObjects_valid (configHeap ++ later) [] (baseOf name) c Hc) as H.
    cbv zeta in H. rewrite app_nil_r in H. exact H.
  - unfold mergeConfig.
    assert (match c with
            | VUndefined => objectLiteral []
            | _ => ret c
            end = ret c) as -> by (destruct c; try reflexivity; discriminate Hnn).
    unfold bind at 1, ret at 1.
    rewrite (bind_Return _ _ _ _ _ (getConfig_eval _ _)), E.
    pose proof (mergeWith_builtin_heap (configHeap ++ later) [] k c Hc Hv Hnn) as H.
    rewrite app_nil_r in H. rewrite H.
    apply closed_app; [exact Hc |].
    repeat apply Forall_cons_2; [.. | apply Forall_nil_2];
      apply validObject_app, mergedGroup_valid, Hc.
Qed.

(** X13: [mergeConfig] keeps the heap well formed, whatever the preset
    name and the override, also when it throws: every reference stored in
    the heap it leaves points into that heap. *)
Theorem mergeConfig_keeps_wellFormed
    (later : heap) (basePreset : option string) (customSettings : val) :
  let h := configHeap ++ later in
  wellFormed h = true →
  validb h customSettings = true →
  wellFormed (mergeConfig basePreset customSettings h).2 = true.
Proof.
  intros h Hc%wellFormed_closed Hv. apply closed_wellFormed. subst h.
  destruct (nonNullish customSettings) eqn:Hnn.
  - now apply mergeConfig_closed_object.
  - destruct customSettings; try discriminate Hnn.
    + rewrite mergeConfig_absent, <- app_assoc.
      apply mergeConfig_closed_object.
      * rewrite app_assoc. now apply closed_alloc_empty.
      * apply validb_ref. rewrite !length_app. cbn [length]. lia.
      * reflexivity.
    + rewrite mergeConfig_null_override. exact Hc.
Qed.

Lemma mergeConfig_keeps_wellFormed_witness :
  wellFormed
    (mergeConfig (Some "constructor") emptyOverride (configHeap ++ emptyCells)).2
  = true.
Proof.
  apply (mergeConfig_keeps_wellFormed emptyCells (Some "constructor") emptyOverride).
  - by_evaluation.
  - by_evaluation.
Defined.


(** X12: the six groups of the result and its
    [cropping.tightCropDetection] are objects [mergeConfig] allocated
    itself, whatever the override holds at these places: the result shares
    none of them with the preset or with the override. *)
Theorem mergeConfig_groups_fresh
    (later : heap) (basePreset : option string) (customSettings : val)
    (path : list string) :
  let h := configHeap ++ later in
  wellFormed h = true →
  validb h customSettings = true →
  nonNullish customSettings = true →
  baseOf basePreset ∈ presetValues →
  path ∈ mergedPaths →
  ∃ r h' l,
    mergeConfig basePreset customSettings h = (Return r, h') ∧
    readPath h' r path = Some (VRef l) ∧
    (length h ≤ l < length h')%nat.
Proof.
  intros h Hwf%wellFormed_closed Hv Hnn Hname Hp.
  pose proof (mergeConfig_returns later basePreset customSettings Hwf Hv Hnn Hname) as E.
  fold h in E.
  destruct (mergedConfig_groups h h (baseOf basePreset) customSettings)
    as (H1 & H2 & H3 & H4 & H6).
  pose proof (mergedConfig_cropping h h (baseOf basePreset) customSettings) as H5.
  pose proof (result_config h h (baseOf basePreset) customSettings) as Hc.
  assert (∀ i, (i < 8)%nat →
            (length h ≤ length h + i
             < length (h ++ mergedObjects h (baseOf basePreset) customSettings (length h)))%nat)
    as Hi by (intros i Hi; rewrite length_app; cbn [mergedObjects length]; lia).
  unfold mergedPaths in Hp. cases_of Hp.
  - eexists _, _, _. split; [exact E |]. rewrite (readPath_last _ _ _ _ Hc).
    split; [exact H1 | apply Hi; lia].
  - eexists _, _, _. split; [exact E |]. rewrite (readPath_last _ _ _ _ Hc).
    split; [exact H2 | apply Hi; lia].
  - eexists _, _, _. split; [exact E |]. rewrite (readPath_last _ _ _ _ Hc).
    split; [exact H3 | apply Hi; lia].
  - eexists _, _, _. split; [exact E |]. rewrite (readPath_last _ _ _ _ Hc).
    split; [exact H4 | apply Hi; lia].
  - eexists _, _, _. split; [exact E |]. rewrite (readPath_last _ _ _ _ Hc).
    split; [exact H5 | apply Hi; lia].
  - eexists _, _, _. split; [exact E |]. rewrite (readPath_last _ _ _ _ Hc).
    split; [exact H6 | apply Hi; lia].
  - eexists _, _, (length h + 4)%nat. split; [exact E |].
    rewrite (readPath_step _ _ _ _ _ _ Hc H5).
    rewrite (readPath_last _ _ _ _ (result_cropping h h (baseOf basePreset) customSettings)).
    split; [apply lookup_insert_eq | apply Hi; lia].
Qed.

Lemma mergeConfig_groups_fresh_witness :
  ∃ r h' l,
    mergeConfig (Some "subtle") emptyOverride (configHeap ++ emptyCells)
    = (Return r, h') ∧
    readPath h' r ["cropping"; "tightCropDetection"] = Some (VRef l) ∧
    (length (configHeap ++ emptyCells) ≤ l < length h')%nat.
Proof.
  apply (mergeConfig_groups_fresh emptyCells (Some "subtle") emptyOverride
           ["cropping"; "tightCropDetection"]).
  - by_evaluation.
  - by_evaluation.
  - reflexivity.
  - by_decision.
  - by_decision.
Defined.


(** ** Preset validation *)

Lemma presets_keys (later : heap) (s : string) :
  s ∈ (map_to_list (ownProperties (configHeap ++ later) presets)).*1 ↔ s ∈ presetNames.
Proof.
  rewrite (ownProperties_app _ _ _ presets_valid).
  change (ownProperties configHeap presets) with (default ∅ (configHeap !! 24%nat)).
  rewrite presets_cell. cbn [default from_option id].
  rewrite list_elem_of_fmap. split.
  - intros ([k v] & -> & H%elem_of_map_to_list). cbn [fst].
    repeat (apply lookup_insert_Some in H as [[<- _] | [_ H]]; [by_decision |]).
    rewrite lookup_empty in H. discriminate H.
  - unfold presetNames. intros H. cases_of H.
    + exists ("default"%string, VRef 7). split; [reflexivity |].
      apply elem_of_map_to_list. by_evaluation.
    + exists ("brighten"%string, VRef 10). split; [reflexivity |].
      apply elem_of_map_to_list. by_evaluation.
    + exists ("subtle"%string, VRef 13). split; [reflexivity |].
      apply elem_of_map_to_list. by_evaluation.
    + exists ("vibrant"%string, VRef 18). split; [reflexivity |].
      apply elem_of_map_to_list. by_evaluation.
    + exists ("natural"%string, VRef 23). split; [reflexivity |].
      apply elem_of_map_to_list. by_evaluation.
Qed.

Lemma includes_presets (later : heap) (x : val) :
  includes (map_to_list (ownProperties (configHeap ++ later) presets)).*1 x
  = includes presetNames x.
Proof.
  destruct x; try reflexivity. cbn [includes].
  apply bool_decide_ext, presets_keys.
Qed.

Lemma objectKeys_presets (later : heap) :
  objectKeys presets (configHeap ++ later)
  = (Return (map_to_list (ownProperties (configHeap ++ later) presets)).*1,
     configHeap ++ later).
Proof. reflexivity. Qed.

Lemma selectedPreset_eval (bodyPreset : val) (later : heap) :
  selectedPreset bodyPreset (configHeap ++ later)
  = (Return (if includes presetNames bodyPreset then bodyPreset else VStr "default"),
     configHeap ++ later).
Proof.
  unfold selectedPreset.
  rewrite (bind_Return _ _ _ _ _ (objectKeys_presets later)).
  unfold ret. rewrite includes_presets. f_equal. f_equal.
  destruct (toBoolean bodyPreset) eqn:E; [reflexivity |].
  assert (includes presetNames bodyPreset = false) as ->; [| reflexivity].
  destruct bodyPreset; try reflexivity. cbn [includes].
  apply bool_decide_eq_false_2. intros H. unfold presetNames in H.
  cases_of H; discriminate E.
Qed.

Lemma selectedPresetFunction_eval (preset : val) (later : heap) :
  selectedPresetFunction preset (configHeap ++ later)
  = (Return (if includes presetNames preset then preset else VStr "default"),
     configHeap ++ later).
Proof.
  unfold selectedPresetFunction.
  rewrite (bind_Return _ _ _ _ _ (objectKeys_presets later)).
  unfold ret. rewrite includes_presets. f_equal. f_equal.
  destruct (toBoolean preset) eqn:E; [reflexivity |].
  cbn [andb].
  assert (includes presetNames preset = false) as ->; [| reflexivity].
  destruct preset; try reflexivity. cbn [includes].
  apply bool_decide_eq_false_2. intros H. unfold presetNames in H.
  cases_of H; discriminate E.
Qed.

Lemma includes_published (x : val) :
  ∃ k, (if includes presetNames x then x else VStr "default") = VStr k ∧
       k ∈ presetNames.
Proof.
  destruct x; try (exists "default"%string; split; [reflexivity | by_decision]).
  cbn [includes]. case_bool_decide as E.
  - exists s. split; [reflexivity | exact E].
  - exists "default"%string; split; [reflexivity | by_decision].
Qed.

Lemma published_baseOf (k : string) : k ∈ presetNames → baseOf (Some k) ∈ presetValues.
Proof.
  intros Hk. apply baseOf_preset. intros k' [= <-]. unfold presetNames in Hk.
  cases_of Hk; by_decision.
Qed.

(** X14: the validation of [app.js] and the one of the cloud function
    give the same result for every request value, never throw and leave
    the heap as it is: the requested name when the request value is a
    string that is a published preset name, ['default'] for every other
    value; the selected name is always published. *)
Theorem selectedPreset_published (body : val) (later : heap) :
  let h := configHeap ++ later in
  let k := match body with
           | VStr s => if decide (s ∈ presetNames) then s else "default"
           | _ => "default"
           end in
  selectedPreset body h = (Return (VStr k), h) ∧
  selectedPresetFunction body h = (Return (VStr k), h) ∧
  k ∈ presetNames.
Proof.
  intros h k. subst h. rewrite selectedPreset_eval, selectedPresetFunction_eval.
  assert ((if includes presetNames body then body else VStr "default") = VStr k
          ∧ k ∈ presetNames) as [-> Hk].
  { subst k. destruct body; try (split; [reflexivity | by_decision]).
    cbn [includes]. unfold bool_decide.
    destruct (decide_rel elem_of s presetNames) as [Hs | Hs].
    - rewrite decide_True by exact Hs. split; [reflexivity | exact Hs].
    - rewrite decide_False by exact Hs. split; [reflexivity | by_decision]. }
  repeat split. exact Hk.
Qed.

(** X15: with the preset name validated as in [app.js], [mergeConfig]
    returns a configuration for every request value of [preset] and every
    override other than [null], the names every object inherits
    included. *)
Theorem validated_preset_merges (body customSettings : val) (later : heap) :
  let h := configHeap ++ later in
  wellFormed h = true →
  validb h customSettings = true →
  customSettings ≠ VNull →
  ∃ k r h',
    selectedPreset body h = (Return (VStr k), h) ∧
    mergeConfig (Some k) customSettings h = (Return r, h').
Proof.
  intros h Hc%wellFormed_closed Hv Hn. subst h. rewrite selectedPreset_eval.
  destruct (includes_published body) as (k & -> & Hk%published_baseOf).
  exists k. destruct (nonNullish customSettings) eqn:Hnn.
  - eexists _, _. split; [reflexivity |].
    exact (mergeConfig_returns later (Some k) customSettings Hc Hv Hnn Hk).
  - destruct customSettings; try discriminate Hnn; [| now destruct Hn].
    eexists _, _. split; [reflexivity |].
    rewrite mergeConfig_absent, <- app_assoc.
    apply mergeConfig_returns; [| | reflexivity | exact Hk].
    + rewrite app_assoc. now apply closed_alloc_empty.
    + apply validb_ref. rewrite !length_app. cbn [length]. lia.
Qed.

Lemma validated_preset_merges_witness :
  ∃ k r h',
    selectedPreset (VStr "constructor") (configHeap ++ [])
    = (Return (VStr k), configHeap ++ []) ∧
    mergeConfig (Some k) VUndefined (configHeap ++ []) = (Return r, h').
Proof.
  apply (validated_preset_merges (VStr "constructor") VUndefined []).
  - by_evaluation.
  - reflexivity.
  - discriminate.
Defined.


(** ** The command line tool *)

Lemma setGroup_eval (h : heap) (c : obj) (cells : list obj)
    (group field : string) (x : val) :
  setGroup (VRef (length h)) group field x (h ++ c :: cells)
  = (Return tt,
     if isUndefined x then h ++ c :: cells
     else h ++ <[group := VRef (length h + S (length cells))]> c
            :: (cells ++ [<[field := x]> ∅])).
Proof.
  unfold setGroup. destruct (isUndefined x); [reflexivity |].
  unfold bind, objectLiteral, setProp. cbn [fold_left define].
  rewrite <- (app_assoc h), <- (Nat.add_0_r (length h)) at 1.
  rewrite alter_app_r. cbn [alter list_alter app].
  rewrite length_app. cbn [length]. reflexivity.
Qed.

Lemma setGroup_assigned (h : heap) (options : val) (c : obj) (cells : list obj)
    (o g f : string) :
  setGroup (VRef (length h)) g f (lookupProperty h options o) (h ++ c :: cells)
  = (Return tt,
     h ++ (assigned h options (length h) (c, cells) (o, g, f)).1
       :: (assigned h options (length h) (c, cells) (o, g, f)).2).
Proof.
  rewrite setGroup_eval. unfold assigned. cbn [fst snd].
  destruct (isUndefined (lookupProperty h options o)); reflexivity.
Qed.

Lemma buildCustomSettings_eval (h : heap) (options : val) :
  validb h options = true → nonNullish options = true →
  buildCustomSettings options h
  = (Return (VRef (length h)),
     h ++ (builtSettings h options).1 :: (builtSettings h options).2).
Proof.
  intros Hv Hnn. unfold buildCustomSettings.
  unfold bind at 1, objectLiteral at 1. cbn [fold_left].
  unfold builtSettings, optionTable. cbn [fold_left].
  do 5 (rewrite (bind_Return _ _ _ _ _ (getProp_nonNullish options _ _ Hnn)),
          (lookupProperty_app _ _ _ _ Hv);
        rewrite (bind_Return _ _ _ _ _ (setGroup_assigned _ _ _ _ _ _ _));
        try rewrite <- surjective_pairing).
  reflexivity.
Qed.

Section Assigned.
Variables (h : heap) (options : val).
Let n := length h.
Let step := assigned h options n.

Lemma fold_assigned_other (t : list (string * string * string))
    (st : obj * list obj) (g : string) :
  g ∉ groupsOf t → (fold_left step t st).1 !! g = st.1 !! g.
Proof.
  revert st. induction t as [| [[o g'] f] t IH]; intros st Hg; [reflexivity |].
  cbn [fold_left]. unfold groupsOf in Hg. rewrite fmap_cons in Hg.
  apply not_elem_of_cons in Hg as [Hne Hg]. cbn [fst snd] in Hne.
  rewrite (IH _ Hg). subst step. unfold assigned. cbn [fst snd].
  destruct (isUndefined (lookupProperty h options o)); [reflexivity |].
  cbn [fst]. now apply lookup_insert_ne.
Qed.

Lemma fold_assigned_cells (t : list (string * string * string))
    (st : obj * list obj) :
  st.2 `prefix_of` (fold_left step t st).2.
Proof.
  revert st. induction t as [| e t IH]; intros st; [reflexivity |].
  cbn [fold_left]. etransitivity; [| apply IH].
  subst step. unfold assigned.
  destruct (isUndefined (lookupProperty h options e.1.1)); [reflexivity |].
  cbn [snd]. now apply prefix_app_r.
Qed.

Lemma fold_assigned_entry (t : list (string * string * string))
    (st : obj * list obj) (o g f : string) :
  NoDup (groupsOf t) → (o, g, f) ∈ t →
  let x := lookupProperty h options o in
  let st' := fold_left step t st in
  if isUndefined x then st'.1 !! g = st.1 !! g
  else ∃ j, st'.1 !! g = Some (VRef (n + S j)) ∧ st'.2 !! j = Some (<[f := x]> ∅).
Proof.
  revert st. induction t as [| e t IH]; intros st Hd He; [now apply elem_of_nil in He |].
  unfold groupsOf in Hd. rewrite fmap_cons in Hd. apply NoDup_cons in Hd as [Hn Hd].
  cbn [fold_left]. apply elem_of_cons in He as [<- | He].
  - cbv zeta. cbn [fst snd] in Hn.
    rewrite (fold_assigned_other t _ g Hn).
    pose proof (fold_assigned_cells t (step st (o, g, f))) as Hp.
    subst step. unfold assigned in *. cbn [fst snd] in *.
    destruct (isUndefined (lookupProperty h options o)); [reflexivity |].
    cbn [fst snd] in *. exists (length st.2). split; [apply lookup_insert_eq |].
    apply (prefix_lookup_Some _ _ _ _ (list_lookup_middle _ _ _ _ eq_refl) Hp).
  - specialize (IH (step st e) Hd He). cbv zeta in IH |- *.
    destruct (isUndefined (lookupProperty h options o)); [| exact IH].
    rewrite IH. subst step. unfold assigned.
    destruct (isUndefined (lookupProperty h options e.1.1)); [reflexivity |].
    cbn [fst]. apply lookup_insert_ne. intros E. apply Hn.
    rewrite E. apply (list_elem_of_fmap_2 (λ e, e.1.2) _ _ He).
Qed.

Hypothesis Hclosed : closed h.

Lemma assigned_built (st : obj * list obj) (e : string * string * string) :
  built h st → built h (step st e).
Proof.
  intros [Hc Hcells]. subst step. unfold assigned.
  destruct (isUndefined (lookupProperty h options e.1.1)); [now split |].
  split; cbn [fst snd].
  - intros k v Hk. rewrite length_app. cbn [length].
    apply lookup_insert_Some in Hk as [[_ <-] | [_ Hk]].
    + exists (length st.2). split; [reflexivity | lia].
    + destruct (Hc k v Hk) as (j & -> & Hj). exists j. split; [reflexivity | lia].
  - apply Forall_app_2; [exact Hcells |]. apply Forall_cons_2; [| apply Forall_nil_2].
    apply validObject_insert; [now apply lookupProperty_valid |].
    intros k x Hk. rewrite lookup_empty in Hk. discriminate Hk.
Qed.

Lemma fold_assigned_built (t : list (string * string * string))
    (st : obj * list obj) :
  built h st → built h (fold_left step t st).
Proof.
  revert st. induction t as [| e t IH]; intros st Hst; [exact Hst |].
  cbn [fold_left]. apply IH, assigned_built, Hst.
Qed.
End Assigned.

Lemma optionTable_groups (o g f : string) :
  (o, g, f) ∈ optionTable → g ∈ configGroups ∧ f ≠ "tightCropDetection"%string.
Proof.
  unfold optionTable. intros H.
  repeat (apply elem_of_cons in H as [[= -> -> ->] | H];
          [split; [by_decision | discriminate] |]).
  now apply elem_of_nil in H.
Qed.

Lemma builtSettings_built (h : heap) (options : val) :
  closed h → built h (builtSettings h options).
Proof.
  intros Hc. apply fold_assigned_built; [exact Hc |]. split.
  - intros k v Hk. cbn [fst] in Hk. rewrite lookup_empty in Hk. discriminate Hk.
  - apply Forall_nil_2.
Qed.

Lemma built_closed (h : heap) (st : obj * list obj) :
  closed h → built h st → closed (h ++ st.1 :: st.2).
Proof.
  intros Hc [Ho Hcells]. apply closed_app; [exact Hc |]. apply Forall_cons_2.
  - intros k v Hk. destruct (Ho k v Hk) as (j & -> & Hj).
    apply validb_ref. rewrite length_app. cbn [length]. lia.
  - apply (Forall_impl _ _ _ Hcells). intros o. apply validObject_app.
Qed.

Section Built.
Variables (h : heap) (options : val).
Let n := length h.
Let st := builtSettings h options.
Let h1 := h ++ st.1 :: st.2.

Lemma built_cell : h1 !! n = Some st.1.
Proof. subst h1 n. now apply list_lookup_middle. Qed.

Lemma built_later (j : nat) : h1 !! (n + S j)%nat = st.2 !! j.
Proof.
  subst h1 n. rewrite lookup_app_r by lia.
  replace (length h + S j - length h)%nat with (S j) by lia. reflexivity.
Qed.

Lemma custom_group (o g f : string) :
  (o, g, f) ∈ optionTable →
  ownProperties h1 (lookupProperty h1 (VRef n) g)
  = if isUndefined (lookupProperty h options o) then ∅
    else <[f := lookupProperty h options o]> ∅.
Proof.
  intros He.
  pose proof (fold_assigned_entry h options optionTable (∅, []) o g f
                ltac:(by_decision) He) as H.
  cbv zeta in H. fold (builtSettings h options) in H. fold st n in H.
  cbn [lookupProperty]. rewrite built_cell. cbn [mbind option_bind].
  destruct (isUndefined (lookupProperty h options o)).
  - rewrite H. cbn [fst]. rewrite lookup_empty.
    rewrite (group_not_inherited g (proj1 (optionTable_groups _ _ _ He))).
    reflexivity.
  - destruct H as (j & -> & Hj). cbn [ownProperties].
    rewrite built_later, Hj. reflexivity.
Qed.

Lemma custom_output : lookupProperty h1 (VRef n) "output" = VUndefined.
Proof.
  cbn [lookupProperty]. rewrite built_cell. cbn [mbind option_bind].
  subst st. unfold builtSettings.
  rewrite fold_assigned_other by by_decision.
  cbn [fst]. rewrite lookup_empty. by_evaluation.
Qed.

Lemma custom_tight :
  optLookupProperty h1 (lookupProperty h1 (VRef n) "cropping") "tightCropDetection"
  = VUndefined.
Proof.
  pose proof (fold_assigned_entry h options optionTable (∅, [])
                "cropSize" "cropping" "faceDetectedSize"
                ltac:(by_decision) ltac:(by_decision)) as H.
  cbv zeta in H. fold (builtSettings h options) in H. fold st n in H.
  cbn [lookupProperty]. rewrite built_cell. cbn [mbind option_bind].
  destruct (isUndefined (lookupProperty h options "cropSize")).
  - rewrite H. cbn [fst]. rewrite lookup_empty. by_evaluation.
  - destruct H as (j & -> & Hj). unfold optLookupProperty. cbn [lookupProperty].
    rewrite built_later, Hj. cbn [mbind option_bind].
    rewrite lookup_insert_ne by discriminate. rewrite lookup_empty. by_evaluation.
Qed.
End Built.

Ltac untouched_field options Hnot entry :=
  lazymatch entry with
  | (?o, ?g, ?f) =>
      rewrite (custom_group _ options o g f ltac:(by_decision));
      destruct (isUndefined (lookupProperty _ options o));
      [ rewrite lookup_empty; reflexivity
      | rewrite lookup_insert_ne;
        [ rewrite lookup_empty; reflexivity
        | intros <-; apply (Hnot o); by_decision ] ]
  end.

(** X16: the command line tool's options, merged onto a preset: each
    option that is given sets the one field of the configuration it stands
    for, each option that is absent leaves that field at the preset's
    value, and every other field of every group, as well as every field of
    [cropping.tightCropDetection], is the preset's. *)
Theorem buildCustomSettings_merged
    (later : heap) (basePreset : option string) (options : val) :
  let h := configHeap ++ later in
  wellFormed h = true →
  validb h options = true →
  nonNullish options = true →
  baseOf basePreset ∈ presetValues →
  ∃ c h1 r h2,
    buildCustomSettings options h = (Return c, h1) ∧
    mergeConfig basePreset c h1 = (Return r, h2) ∧
    (∀ o g f, (o, g, f) ∈ optionTable →
       readPath h2 r [g; f]
       = if isUndefined (lookupProperty h options o)
         then readPath configHeap (baseOf basePreset) [g; f]
         else Some (lookupProperty h options o)) ∧
    (∀ g k, g ∈ configGroups → (∀ o, (o, g, k) ∉ optionTable) →
       (g = "cropping"%string → k ≠ "tightCropDetection"%string) →
       readPath h2 r [g; k] = readPath configHeap (baseOf basePreset) [g; k]) ∧
    (∀ k, readPath h2 r ["cropping"; "tightCropDetection"; k]%string
          = readPath configHeap (baseOf basePreset)
              ["cropping"; "tightCropDetection"; k]%string).
Proof.
  intros h Hc%wellFormed_closed Hv Hnn Hname.
  pose (later' := later ++ (builtSettings h options).1 :: (builtSettings h options).2).
  assert (h ++ (builtSettings h options).1 :: (builtSettings h options).2
          = configHeap ++ later') as Hh1 by (symmetry; apply app_assoc).
  assert (closed (configHeap ++ later')) as Hc1.
  { rewrite <- Hh1. apply built_closed; [exact Hc | now apply builtSettings_built]. }
  assert (validb (configHeap ++ later') (VRef (length h)) = true) as Hv1.
  { apply validb_ref. rewrite <- Hh1, length_app. cbn [length]. lia. }
  exists (VRef (length h)), (configHeap ++ later'). eexists _, _.
  split; [rewrite <- Hh1; now apply buildCustomSettings_eval |].
  split; [exact (mergeConfig_returns later' basePreset _ Hc1 Hv1 eq_refl Hname) |].
  split; [| split].
  - intros o g f He. destruct (optionTable_groups _ _ _ He) as [Hg Hf].
    rewrite (merged_field later' basePreset _ g f Hc1 Hv1 eq_refl Hname Hg (λ _, Hf)).
    rewrite <- Hh1, (custom_group h options o g f He).
    destruct (isUndefined (lookupProperty h options o)).
    + rewrite lookup_empty. reflexivity.
    + rewrite lookup_insert_eq. reflexivity.
  - intros g k Hg Hnot Hk.
    rewrite (merged_field later' basePreset _ g k Hc1 Hv1 eq_refl Hname Hg Hk).
    rewrite <- Hh1. unfold configGroups in Hg. cases_of Hg.
    + untouched_field options Hnot ("brightness", "brightness", "base")%string.
    + untouched_field options Hnot ("saturation", "color", "saturation")%string.
    + untouched_field options Hnot ("gamma", "contrast", "gamma")%string.
    + untouched_field options Hnot ("sharpening", "sharpening", "sigma")%string.
    + untouched_field options Hnot ("cropSize", "cropping", "faceDetectedSize")%string.
    + rewrite custom_output. cbn [ownProperties]. rewrite lookup_empty. reflexivity.
  - intros k.
    apply (merged_tight_untouched later' basePreset _ Hname k).
    rewrite <- Hh1, custom_tight. apply lookup_empty.
Qed.

Lemma buildCustomSettings_merged_witness :
  let h := configHeap ++ brightnessOptionCells in
  ∃ c h1 r h2,
    buildCustomSettings brightnessOption h = (Return c, h1) ∧
    mergeConfig (Some "vibrant") c h1 = (Return r, h2) ∧
    (∀ o g f, (o, g, f) ∈ optionTable →
       readPath h2 r [g; f]
       = if isUndefined (lookupProperty h brightnessOption o)
         then readPath configHeap (baseOf (Some "vibrant")) [g; f]
         else Some (lookupProperty h brightnessOption o)) ∧
    (∀ g k, g ∈ configGroups → (∀ o, (o, g, k) ∉ optionTable) →
       (g = "cropping" → k ≠ "tightCropDetection") →
       readPath h2 r [g; k] = readPath configHeap (baseOf (Some "vibrant")) [g; k]) ∧
    (∀ k, readPath h2 r ["cropping"; "tightCropDetection"; k]
          = readPath configHeap (baseOf (Some "vibrant"))
              ["cropping"; "tightCropDetection"; k]).
Proof.
  apply (buildCustomSettings_merged brightnessOptionCells (Some "vibrant")
           brightnessOption).
  - by_evaluation.
  - by_evaluation.
  - reflexivity.
  - by_decision.
Defined.


(** ** Command line arguments *)

Section ParseArgsFacts.
Variable parseFloat : val → val.






End ParseArgsFacts.

(** ** The published presets *)

(** X17: the records [defaultBrightness] and [defaultCropping] are what
    the module stores: [processingConfig.brightness] reads as
    [defaultBrightness], and every published preset has the cropping group
    [defaultCropping] and the three brightness thresholds of the default:
    no preset overrides them. *)
Theorem presets_share_cropping :
  readBrightness configHeap processingConfig = Some defaultBrightness ∧
  ∀ b, b ∈ presetValues →
    readCropping configHeap b = Some defaultCropping ∧
    thresholds <$> readBrightness configHeap b = Some (thresholds defaultBrightness).
Proof.
  split; [by_evaluation |].
  intros b. rewrite presetValues_eq. intros H. cases_of H.
  - split; by_evaluation.
  - split; by_evaluation.
  - split; by_evaluation.
  - split; by_evaluation.
  - split; by_evaluation.
Qed.

Lemma presets_share_cropping_witness :
  readCropping configHeap (baseOf (Some "vibrant"%string)) = Some defaultCropping ∧
  thresholds <$> readBrightness configHeap (baseOf (Some "vibrant"%string))
  = Some (thresholds defaultBrightness).
Proof.
  apply (proj2 presets_share_cropping (baseOf (Some "vibrant"%string))).
  by_decision.
Defined.

(** ** The crop under the published presets *)

Lemma extract_Return (m : ImageMetadata) (r : CropRegion) :
  extract m r = Return r ↔ validRegion m r.
Proof.
  unfold extract, validRegion, insideImage.
  destruct (0 <=? crop_left r) eqn:E1, (0 <=? crop_top r) eqn:E2,
    (0 <? crop_width r) eqn:E3, (0 <? crop_height r) eqn:E4,
    (crop_left r + crop_width r <=? width m) eqn:E5,
    (crop_top r + crop_height r <=? height m) eqn:E6;
    cbn [andb]; (split; [intros H; try discriminate H | intros H; try reflexivity]);
    lia.
Qed.

Lemma presets_default_cropping (b : val) :
  b ∈ presetValues → readCropping configHeap b = Some defaultCropping.
Proof.
  rewrite presetValues_eq. intros H. cases_of H.
  - by_evaluation.
  - by_evaluation.
  - by_evaluation.
  - by_evaluation.
  - by_evaluation.
Qed.

(** The nominal side of the presets is at least 1 exactly when the shorter
    side of the image is at least 2. *)
Lemma default_side (m : ImageMetadata) (fc : option (Q * Q)) :
  0 < width m → 0 < height m →
  1 ≤ Qfloor (squareSize m fc defaultCropping) ↔ 2 ≤ Z.min (width m) (height m).
Proof.
  intros Hw Hh. set (n := Z.min (width m) (height m)).
  assert (0 < n) as Hn by (subst n; lia).
  assert (squareSize m fc defaultCropping
          = (inject_Z n * cropSize fc defaultCropping)%Q) as ->
    by apply squareSize_cropSize.
  assert ((cropSize fc defaultCropping = 0.65 ∨ cropSize fc defaultCropping = 0.8)%Q)
    as Hsize by (destruct fc; [left | right]; reflexivity).
  clearbody n. split.
  - intros H.
    assert (1 <= inject_Z n * cropSize fc defaultCropping)%Q as Hq.
    { eapply Qle_trans; [| apply Qfloor_le].
      change 1%Q with (inject_Z 1). rewrite <- Zle_Qle. exact H. }
    destruct (Z_le_gt_dec 2 n) as [Hle | Hgt]; [exact Hle | exfalso].
    assert (n = 1) as -> by lia.
    destruct Hsize as [E | E]; rewrite E in Hq; vm_compute in Hq; congruence.
  - intros H. apply floor_at_least_one.
    assert (2 <= inject_Z n)%Q as Hq
      by (change 2%Q with (inject_Z 2); rewrite <- Zle_Qle; exact H).
    destruct Hsize as [E | E]; rewrite E; lra.
Qed.

(** C2, amended: for every image of positive width and height and every
    detector answer (none, no face, any list of boxes), the rectangle the
    planner returns has [0 <= left], [0 <= top],
    [left + width <= imageWidth] and [top + height <= imageHeight]; its
    width and height are positive, and [extract] accepts it, whenever the
    nominal side [min(imageWidth, imageHeight) * size] is at least 1, this
    for every cropping configuration whose fields are rational numbers; and
    under the cropping configuration of any preset its width and height
    are positive exactly when both sides of the image are at least 2
    pixels, which is also exactly when [extract] accepts it: then an
    out-of-bounds nominal crop is clamped and shrunk to fit, nothing is
    thrown; for an image with a side of one pixel the rectangle is empty
    and [extract] refuses it. *)
Theorem smartCropImage_inside (m : ImageMetadata)
    (detections : option (list FaceBox)) (c : CroppingConfig) :
  0 < width m → 0 < height m →
  let r := smartCropImage m detections c in
  insideImage m r ∧
  ((1 <= squareSize m (detectFaceCenter detections) c)%Q →
   validRegion m r ∧ extract m r = Return r) ∧
  (∀ b, b ∈ presetValues → readCropping configHeap b = Some c →
     (validRegion m r ↔ 2 ≤ Z.min (width m) (height m)) ∧
     (extract m r = Return r ↔ 2 ≤ Z.min (width m) (height m))).
Proof.
  intros Hw Hh r. subst r. unfold smartCropImage.
  set (fc := detectFaceCenter detections).
  destruct (cropRegion_shape m fc c) as (l0 & t0 & E).
  cbv zeta in E. rewrite E.
  set (side := Qfloor (squareSize m fc c)) in *.
  set (r := {| crop_left := Z.max 0 (Z.min l0 (width m - side));
               crop_top := Z.max 0 (Z.min t0 (height m - side));
               crop_width := Z.min side (width m - Z.max 0 (Z.min l0 (width m - side)));
               crop_height := Z.min side (height m - Z.max 0 (Z.min t0 (height m - side))) |}).
  assert (insideImage m r) as Hin.
  { unfold insideImage. subst r. cbn [crop_left crop_top crop_width crop_height].
    clearbody side. clear E. lia. }
  assert (validRegion m r ↔ 1 ≤ side) as Hvalid.
  { unfold validRegion. split.
    - intros (_ & Hpos & _). subst r. cbn [crop_width] in Hpos.
      clearbody side. clear E Hin. lia.
    - intros Hs. split; [exact Hin |]. subst r. cbn [crop_width crop_height].
      clearbody side. clear E Hin. lia. }
  split; [exact Hin |]. split.
  - intros Hside%floor_at_least_one. fold side in Hside.
    apply Hvalid in Hside. split; [exact Hside | now apply extract_Return].
  - intros b Hb Hc. rewrite (presets_default_cropping b Hb) in Hc. injection Hc as <-.
    rewrite extract_Return, Hvalid. subst side.
    split; apply default_side; assumption.
Qed.

Lemma smartCropImage_inside_witness :
  let r := smartCropImage squareImage (Some [closeUpBox]) defaultCropping in
  insideImage squareImage r ∧
  ((1 <= squareSize squareImage (detectFaceCenter (Some [closeUpBox]))
           defaultCropping)%Q →
   validRegion squareImage r ∧ extract squareImage r = Return r) ∧
  (∀ b, b ∈ presetValues → readCropping configHeap b = Some defaultCropping →
     (validRegion squareImage r
      ↔ 2 ≤ Z.min (width squareImage) (height squareImage)) ∧
     (extract squareImage r = Return r
      ↔ 2 ≤ Z.min (width squareImage) (height squareImage))).
Proof.
  apply (smartCropImage_inside squareImage (Some [closeUpBox]) defaultCropping);
    reflexivity.
Defined.
